(** * Matrix: a shallow embedding of [src/matrix.cpp]

    The C++ class [Matrix] stores a [std::vector<std::vector<double>>]
    together with two [size_t] dimensions.  The embedding keeps that
    representation: rows are lists of IEEE-754 binary64 values (Rocq's
    primitive floats), the dimensions are natural numbers, C++ exceptions
    and undefined behaviour are outcomes of a small state-and-error monad
    and every loop of the source is a loop of the model.

    Sizes are [nat]: the only [size_t] arithmetic of the file that can
    leave the range of the counters, the shifts [i << rows] of
    [operator*] and the sum [rows + cols] of [xavierInit], is written out
    on 64-bit words. *)

From Stdlib Require Import ZArith NArith String Floats Uint63 Lia.
From stdpp Require Import base tactics option list.

(** ** Outcomes of a call *)

(** The standard exception classes: the two the file throws itself, and
    [std::length_error], which [std::vector] throws when asked for more
    elements than its [max_size()]. *)
Inductive exception_class : Type :=
| out_of_range
| invalid_argument
| length_error.

Record exception : Type := mkException {
  exn_class : exception_class;
  what : string
}.

(** Undefined behaviour the source can reach: unchecked [operator[]] of a
    [std::vector] outside its size, and a shift whose count is not below
    the width of [size_t]. *)
Inductive undefined : Type :=
| vector_index (size index : nat)
| shift_count (count : nat).

Inductive outcome (A : Type) : Type :=
| Ret (a : A)
| Throw (e : exception)
| Undef (u : undefined)
| Timeout.

Arguments Ret {A} a.
Arguments Throw {A} e.
Arguments Undef {A} u.
Arguments Timeout {A}.

Definition is_Ret {A} (o : outcome A) : Prop :=
  match o with Ret _ => True | _ => False end.

Definition is_Throw {A} (o : outcome A) : Prop :=
  match o with Throw _ => True | _ => False end.

(** ** Computations over a mutable object

    [M S A] is a computation that runs on an object of type [S] (the
    receiver [*this], or a local such as [result]), may change it and ends
    with an outcome.  The object survives a throw, as in C++: what was
    written before the throw stays written. *)

Definition M (S A : Type) : Type := S -> S * outcome A.

Definition ret {S A} (a : A) : M S A := fun s => (s, Ret a).

Definition bind {S A B} (c : M S A) (k : A -> M S B) : M S B :=
  fun s =>
    match c s with
    | (s', Ret a) => k a s'
    | (s', Throw e) => (s', Throw e)
    | (s', Undef u) => (s', Undef u)
    | (s', Timeout) => (s', Timeout)
    end.

Definition throw {S A} (e : exception) : M S A := fun s => (s, Throw e).

(** An expression that does not touch the object. *)
Definition lift {S A} (o : outcome A) : M S A := fun s => (s, o).

Definition gets {S A} (f : S -> A) : M S A := fun s => (s, Ret (f s)).

Definition put {S} (s : S) : M S unit := fun _ => (s, Ret tt).

Declare Scope cpp_scope.
Delimit Scope cpp_scope with cpp.
Notation "x <- c ;; k" := (bind c (fun x => k))
  (at level 100, c at next level, right associativity) : cpp_scope.
Notation "c ;;; k" := (bind c (fun _ => k))
  (at level 100, right associativity) : cpp_scope.
Open Scope cpp_scope.

(** [for (size_t i = 0; i < n; ++i) body] where the body does not change
    [n]: the body runs on 0, 1, ..., n-1 and a throw leaves the loop. *)
Fixpoint for_each {S} (idx : list nat) (body : nat -> M S unit) : M S unit :=
  match idx with
  | [] => ret tt
  | i :: idx' => body i ;;; for_each idx' body
  end.

Definition for_lt {S} (n : nat) (body : nat -> M S unit) : M S unit :=
  for_each (seq 0 n) body.

(** [for (size_t i = start; cond(i); ++i) body] with an arbitrary
    condition; [fuel] bounds the number of tests of the condition.  The
    counter is a 64-bit word. *)
Definition size_t_modulus : N := 2 ^ 64.

Fixpoint for_loop {S} (fuel : nat) (cond : N -> M S bool)
    (body : N -> M S unit) (i : N) : M S unit :=
  match fuel with
  | O => lift Timeout
  | Datatypes.S fuel' =>
      b <- cond i ;;
      if b : bool
      then body i ;;; for_loop fuel' cond body ((i + 1) mod size_t_modulus)%N
      else ret tt
  end.

(** A local object: [T result(...); body; return result;]. *)
Definition with_local {S} (init : S) (body : M S unit) : outcome S :=
  match body init with
  | (s, Ret _) => Ret s
  | (_, Throw e) => Throw e
  | (_, Undef u) => Undef u
  | (_, Timeout) => Timeout
  end.

(** [i << n] on [size_t]: undefined when the count reaches the width. *)
Definition size_t_shl (i : N) (n : nat) : outcome N :=
  if decide (n < 64) then Ret (N.shiftl i (N.of_nat n) mod size_t_modulus)%N
  else Undef (shift_count n).

(** A [size_t] used as a condition: nonzero is true. *)
Definition to_bool (x : N) : bool := negb (x =? 0)%N.

(** ** The data model *)

Abbreviation vector2 := (list (list float)) (only parsing).

Record Matrix : Type := mkMatrix {
  data : vector2;
  rows : nat;
  cols : nat
}.

(** The class invariant: [rows] rows of [cols] elements each. *)
Definition wf (m : Matrix) : Prop :=
  length (data m) = rows m /\ Forall (fun r => length r = cols m) (data m).

Definition wfb (m : Matrix) : bool :=
  (length (data m) =? rows m) && forallb (fun r => length r =? cols m) (data m).

(** [std::vector::resize(n, x)]. *)
Definition vector_resize {A} (v : list A) (n : nat) (x : A) : list A :=
  take n v ++ replicate (n - length v) x.

(** [std::vector<double>(n, x)]. *)
Definition vector_fill (n : nat) (x : float) : list float := replicate n x.

(** The size limit of a [std::vector]: [max_size()] is
    [PTRDIFF_MAX / sizeof(T)] (libstdc++, LP64), with
    [sizeof(double) = 8] and [sizeof(std::vector<double>) = 24]. *)
Definition PTRDIFF_MAX : N := 2 ^ 63 - 1.
Definition sizeof_double : N := 8.
Definition sizeof_vector : N := 24.

Definition vector_max_size (element_size : N) : N :=
  (PTRDIFF_MAX / element_size)%N.

Definition cannot_create_vector : exception :=
  mkException length_error "cannot create std::vector larger than max_size()".

Definition fill_insert_too_long : exception :=
  mkException length_error "vector::_M_fill_insert".

(** [std::vector<double>(n, x)] with the check of its constructor:
    more than [max_size()] elements throw before anything is built. *)
Definition vector_fill_checked (n : nat) (x : float) : outcome (list float) :=
  if (vector_max_size sizeof_double <? N.of_nat n)%N
  then Throw cannot_create_vector
  else Ret (vector_fill n x).

(** [v.resize(n, x)] with the check of the insertion it makes when it
    grows: [n - size()] new elements are refused when they exceed
    [max_size() - size()].  Shrinking checks nothing. *)
Definition vector_resize_checked {A} (element_size : N) (v : list A) (n : nat)
    (x : A) : outcome (list A) :=
  if (vector_max_size element_size - N.of_nat (length v)
      <? N.of_nat (n - length v))%N
  then Throw fill_insert_too_long
  else Ret (vector_resize v n x).

(** [data[i][j]] read without a check. *)
Definition vector_read (d : vector2) (i j : nat) : outcome float :=
  match d !! i with
  | None => Undef (vector_index (length d) i)
  | Some r =>
      match r !! j with
      | None => Undef (vector_index (length r) j)
      | Some x => Ret x
      end
  end.

(** [data[i][j] = x] without a check. *)
Definition vector_write (d : vector2) (i j : nat) (x : float) : outcome vector2 :=
  match d !! i with
  | None => Undef (vector_index (length d) i)
  | Some r =>
      if decide (j < length r) then Ret (<[i := <[j := x]> r]> d)
      else Undef (vector_index (length r) j)
  end.

(** Constructors.  A constructor that throws (a size beyond
    [max_size()], as in [resize] below) leaves no object; the
    definitions describe the object a constructor that returns leaves. *)
Definition Matrix_default : Matrix := mkMatrix [] 0 0.

Definition Matrix_value (r c : nat) (value : float) : Matrix :=
  mkMatrix (vector_resize [] r (vector_fill c value)) r c.

Definition Matrix_zero (r c : nat) : Matrix := Matrix_value r c 0%float.

(** Modelled from the spec: the accessors [getRows] and [getCols] are
    declared in [matrix.h], which is not among the sources; they return
    the attributes [rowCount] and [colCount]. *)
Definition getRows (m : Matrix) : nat := rows m.
Definition getCols (m : Matrix) : nat := cols m.

(** Copy assignment: [*this = other].  The guard [this != &other] only
    skips a copy that would change nothing. *)
Definition operator_assign (other : Matrix) : M Matrix unit :=
  put (mkMatrix (data other) (rows other) (cols other)).

(** [this->data[i][j]] on the receiver. *)
Definition data_read (i j : nat) : M Matrix float :=
  fun m => (m, vector_read (data m) i j).

Definition data_write (i j : nat) (x : float) : M Matrix unit :=
  fun m =>
    match vector_write (data m) i j x with
    | Ret d => (mkMatrix d (rows m) (cols m), Ret tt)
    | Throw e => (m, Throw e)
    | Undef u => (m, Undef u)
    | Timeout => (m, Timeout)
    end.

(** Element access, the const overload: [m(row, col)] as a value. *)
Definition at_const (m : Matrix) (row col : nat) : outcome float :=
  if (rows m <=? row) || (cols m <=? col)
  then Throw (mkException out_of_range "Matrix index out of range")
  else vector_read (data m) row col.

(** Element access, the mutable overload, written through the
    reference: [m(row, col) = x]. *)
Definition at_write (row col : nat) (x : float) : M Matrix unit :=
  fun m =>
    if (rows m <=? row) || (cols m <=? col)
    then (m, Throw (mkException out_of_range "Matri index out of range"))
    else data_write row col x m.

(** Compound assignment through the mutable overload:
    [m(row, col) += x] forms the reference once, then reads and writes. *)
Definition at_update (row col : nat) (f : float -> float) : M Matrix unit :=
  fun m =>
    if (rows m <=? row) || (cols m <=? col)
    then (m, Throw (mkException out_of_range "Matri index out of range"))
    else (x <- data_read row col ;; data_write row col (f x)) m.

(** [data[i][j] *= x] on the receiver. *)
Definition data_update (i j : nat) (f : float -> float) : M Matrix unit :=
  x <- data_read i j ;; data_write i j (f x).

(** ** Matrix operations *)

Definition dimensions_do_not_match : exception :=
  mkException invalid_argument "Matrix dimensions do not match".

Definition invalid_multiplication : exception :=
  mkException invalid_argument "Invlaid dimensions for matrix multiplication".

Definition division_by_zero : exception :=
  mkException invalid_argument "Division by zero".

Definition identity_not_square : exception :=
  mkException invalid_argument "Indentity Matrix must be square".

Definition column_out_of_range : exception :=
  mkException out_of_range "Column index out of range".

Definition row_out_of_range : exception :=
  mkException out_of_range "Row index out of range".

Definition column_dimensions : exception :=
  mkException invalid_argument "Matrix Dimnesions must match".

Definition operator_plus (this other : Matrix) : outcome Matrix :=
  if negb (rows this =? rows other) || negb (cols this =? cols other)
  then Throw dimensions_do_not_match
  else
    with_local (Matrix_zero (rows this) (cols this))
      (for_lt (rows this) (fun i =>
       for_lt (cols this) (fun j =>
         a <- lift (vector_read (data this) i j) ;;
         b <- lift (at_const other i j) ;;
         at_write i j (a + b)%float))).

Definition operator_minus (this other : Matrix) : outcome Matrix :=
  if negb (rows this =? rows other) || negb (cols this =? cols other)
  then Throw dimensions_do_not_match
  else
    with_local (Matrix_zero (rows this) (cols this))
      (for_lt (rows this) (fun i =>
       for_lt (cols this) (fun j =>
         a <- lift (vector_read (data this) i j) ;;
         b <- lift (at_const other i j) ;;
         at_write i j (a - b)%float))).

(** [operator*(const Matrix&)].  The two outer loops test [i << rows] and
    [j << other.cols], as the source writes them. *)
Definition operator_mul (fuel : nat) (this other : Matrix) : outcome Matrix :=
  if negb (cols this =? rows other)
  then Throw invalid_multiplication
  else
    with_local (Matrix_zero (rows this) (cols other))
      (for_loop fuel
         (fun i => x <- lift (size_t_shl i (rows this)) ;; ret (to_bool x))
         (fun i =>
            for_loop fuel
              (fun j => x <- lift (size_t_shl j (cols other)) ;; ret (to_bool x))
              (fun j =>
                 for_lt (cols this) (fun k =>
                   a <- lift (vector_read (data this) (N.to_nat i) k) ;;
                   b <- lift (at_const other k (N.to_nat j)) ;;
                   at_update (N.to_nat i) (N.to_nat j)
                     (fun r => (r + a * b)%float)))
              0%N)
         0%N).

(** The product in the words of the specification: every element
    [(i, j)] of the zero-filled result accumulates the dot product of row
    [i] and column [j].  These are the loops of [operator*] with the
    comparisons [i < rows] and [j < other.cols]. *)
Definition matrix_product (this other : Matrix) : outcome Matrix :=
  if negb (cols this =? rows other)
  then Throw invalid_multiplication
  else
    with_local (Matrix_zero (rows this) (cols other))
      (for_lt (rows this) (fun i =>
       for_lt (cols other) (fun j =>
       for_lt (cols this) (fun k =>
         a <- lift (vector_read (data this) i k) ;;
         b <- lift (at_const other k j) ;;
         at_update i j (fun r => (r + a * b)%float))))).

(** [operator*(double)]. *)
Definition operator_mul_scalar (this : Matrix) (scalar : float) : outcome Matrix :=
  with_local (Matrix_zero (rows this) (cols this))
    (for_lt (rows this) (fun i =>
     for_lt (cols this) (fun j =>
       a <- lift (vector_read (data this) i j) ;;
       at_write i j (a * scalar)%float))).

Definition operator_div (this : Matrix) (scalar : float) : outcome Matrix :=
  if (scalar =? 0)%float
  then Throw division_by_zero
  else operator_mul_scalar this (1 / scalar)%float.

(** In-place operations.  The right-hand side is a temporary, so the
    copy assignment always takes its copying branch. *)
Definition operator_plus_assign (other : Matrix) : M Matrix unit :=
  this <- gets id ;;
  sum <- lift (operator_plus this other) ;;
  operator_assign sum.

Definition operator_minus_assign (other : Matrix) : M Matrix unit :=
  this <- gets id ;;
  difference <- lift (operator_minus this other) ;;
  operator_assign difference.

Definition operator_mul_assign (scalar : float) : M Matrix unit :=
  r <- gets rows ;;
  c <- gets cols ;;
  for_lt r (fun i =>
  for_lt c (fun j =>
    data_update i j (fun x => (x * scalar)%float))).

(** Element-wise (Hadamard) product. *)
Definition hadamard (this other : Matrix) : outcome Matrix :=
  if negb (rows this =? rows other) || negb (cols this =? cols other)
  then Throw dimensions_do_not_match
  else
    with_local (Matrix_zero (rows this) (cols this))
      (for_lt (rows this) (fun i =>
       for_lt (cols this) (fun j =>
         a <- lift (vector_read (data this) i j) ;;
         b <- lift (at_const other i j) ;;
         at_write i j (a * b)%float))).

Definition transpose (this : Matrix) : outcome Matrix :=
  with_local (Matrix_zero (cols this) (rows this))
    (for_lt (rows this) (fun i =>
     for_lt (cols this) (fun j =>
       a <- lift (vector_read (data this) i j) ;;
       at_write j i a))).

Definition apply (this : Matrix) (func : float -> float) : outcome Matrix :=
  with_local (Matrix_zero (rows this) (cols this))
    (for_lt (rows this) (fun i =>
     for_lt (cols this) (fun j =>
       a <- lift (vector_read (data this) i j) ;;
       at_write i j (func a)))).

(** ** Initialisation *)

Definition fill (value : float) : M Matrix unit :=
  r <- gets rows ;;
  c <- gets cols ;;
  for_lt r (fun i =>
  for_lt c (fun j =>
    data_write i j value)).

Definition identity : M Matrix unit :=
  r <- gets rows ;;
  c <- gets cols ;;
  if negb (r =? c)
  then throw identity_not_square
  else
    fill 0%float ;;;
    for_lt r (fun i => data_write i i 1%float).

(** [size_t] to [double]: exact below 2^53, rounded to nearest above;
    [of_uint63] covers 63 bits, the top bit is handled by halving with a
    sticky low bit. *)
Definition double_of_size_t (n : N) : float :=
  if (n <? 2 ^ 63)%N
  then PrimFloat.of_uint63 (Uint63.of_Z (Z.of_N n))
  else (PrimFloat.of_uint63
          (Uint63.of_Z (Z.of_N (N.lor (N.shiftr n 1) (N.land n 1)))) * 2)%float.

Definition size_t_add (a b : nat) : N :=
  ((N.of_nat a + N.of_nat b) mod size_t_modulus)%N.

Section Random.

(** The state of the static [std::mt19937 gen] and a draw
    [dis(gen)] of [std::uniform_real_distribution<double> dis(min, max)]:
    standard-library code, taken as given. *)
Variable mt19937 : Type.
Variable uniform_real_distribution : float -> float -> mt19937 -> float * mt19937.

Definition on_matrix {A} (c : M Matrix A) : M (Matrix * mt19937) A :=
  fun s => let (m', o) := c (fst s) in ((m', snd s), o).

Definition dis (min max : float) : M (Matrix * mt19937) float :=
  fun s =>
    let (x, g') := uniform_real_distribution min max (snd s) in
    ((fst s, g'), Ret x).

(** The body of the loops of [randomize]: [data[i][j] = dis(gen)]. *)
Definition randomize_at (min max : float) (i j : nat) : M (Matrix * mt19937) unit :=
  x <- dis min max ;;
  on_matrix (data_write i j x).

(** The inner loop of [randomize] on row [i]; its bound is [rows]. *)
Definition randomize_row (min max : float) (r i : nat) : M (Matrix * mt19937) unit :=
  for_lt r (fun j => randomize_at min max i j).

Definition randomize (min max : float) : M (Matrix * mt19937) unit :=
  r <- on_matrix (gets rows) ;;
  for_lt r (fun i => randomize_row min max r i).

Definition xavierInit : M (Matrix * mt19937) unit :=
  r <- on_matrix (gets rows) ;;
  c <- on_matrix (gets cols) ;;
  let limit := PrimFloat.sqrt (6 / double_of_size_t (size_t_add r c))%float in
  randomize (- limit)%float limit.

End Random.

Section RandomNormal.

(** The static [std::mt19937 gen] of [heInit] and the local
    [std::normal_distribution<double> dis(0.0, stddev)]: the distribution
    object keeps state between draws, so a draw [dis(gen)] acts on the
    pair of both.  Standard-library code, taken as given. *)
Variable mt19937 : Type.
Variable normal_distribution : Type.
Variable normal_distribution_init : float -> float -> normal_distribution.
Variable normal_distribution_draw :
  normal_distribution * mt19937 -> float * (normal_distribution * mt19937).

Definition normal_dis : M (Matrix * (normal_distribution * mt19937)) float :=
  fun s =>
    let (x, d') := normal_distribution_draw (snd s) in
    ((fst s, d'), Ret x).

(** The body of the loops of [heInit]: [data[i][j] = dis(gen)]. *)
Definition heInit_at (i j : nat) : M (Matrix * (normal_distribution * mt19937)) unit :=
  x <- normal_dis ;;
  on_matrix (normal_distribution * mt19937) (data_write i j x).

Definition heInit : M (Matrix * mt19937) unit :=
  fun s =>
    let stddev := PrimFloat.sqrt (2 / double_of_size_t (N.of_nat (rows (fst s))))%float in
    let dis := normal_distribution_init 0%float stddev in
    let (s', o) :=
      (r <- on_matrix (normal_distribution * mt19937) (gets rows) ;;
       c <- on_matrix (normal_distribution * mt19937) (gets cols) ;;
       for_lt r (fun i =>
       for_lt c (fun j =>
         heInit_at i j))) (fst s, (dis, snd s)) in
    ((fst s', snd (snd s')), o).

End RandomNormal.

(** ** Utility methods *)

Definition sum (this : Matrix) : outcome float :=
  with_local 0%float
    (for_lt (rows this) (fun i =>
     for_lt (cols this) (fun j =>
       a <- lift (vector_read (data this) i j) ;;
       total <- gets id ;;
       put (total + a)%float))).

Definition getRow (this : Matrix) (row : nat) : outcome (list float) :=
  if rows this <=? row
  then Throw row_out_of_range
  else
    match data this !! row with
    | Some r => Ret r
    | None => Undef (vector_index (length (data this)) row)
    end.

Definition getCol (this : Matrix) (col : nat) : outcome Matrix :=
  if cols this <=? col
  then Throw column_out_of_range
  else
    with_local (Matrix_zero (rows this) 1)
      (for_lt (rows this) (fun i =>
         a <- lift (vector_read (data this) i col) ;;
         at_write i 0 a)).

Definition setCol (col : nat) (colMatrix : Matrix) : M Matrix unit :=
  r <- gets rows ;;
  c <- gets cols ;;
  if c <=? col
  then throw column_out_of_range
  else if negb (getCols colMatrix =? 1) || negb (getRows colMatrix =? r)
  then throw column_dimensions
  else
    for_lt r (fun i =>
      a <- lift (at_const colMatrix i 0) ;;
      data_write i col a).

(** Assignments to the members of the receiver. *)
Definition set_rows (r : nat) : M Matrix unit :=
  fun this => (mkMatrix (data this) r (cols this), Ret tt).

Definition set_cols (c : nat) : M Matrix unit :=
  fun this => (mkMatrix (data this) (rows this) c, Ret tt).

Definition set_data (d : list (list float)) : M Matrix unit :=
  fun this => (mkMatrix d (rows this) (cols this), Ret tt).

(** [resize]: [rows] and [cols] are assigned and [data] is cleared
    before the vectors are built, so a [length_error] of either vector
    leaves the receiver with the new dimensions and no data.  The
    argument [std::vector<double>(cols, 0.0)] is built before
    [data.resize] is entered.  Running out of memory
    ([std::bad_alloc]) is not modelled. *)
Definition resize (newRows newCols : nat) : M Matrix unit :=
  set_rows newRows ;;;
  set_cols newCols ;;;
  set_data [] ;;;
  c <- gets cols ;;
  row <- lift (vector_fill_checked c 0%float) ;;
  r <- gets rows ;;
  d <- gets data ;;
  d' <- lift (vector_resize_checked sizeof_vector d r row) ;;
  set_data d'.

(** ** Notions used to state the properties *)

(** The element at a position, when the storage has one there. *)
Definition elem (m : Matrix) (i j : nat) : option float :=
  match data m !! i with
  | Some r => r !! j
  | None => None
  end.

(** The matrix after the store [data[i][j] = x]. *)
Definition store (m : Matrix) (i j : nat) (x : float) : Matrix :=
  mkMatrix (alter (fun r => <[j := x]> r) i (data m)) (rows m) (cols m).

(** The element at a valid position of a well-formed matrix. *)
Definition get (m : Matrix) (i j : nat) : float := default 0%float (elem m i j).

(** Two matrices have the same shape. *)
Definition same_shape (A B : Matrix) : Prop :=
  rows A = rows B /\ cols A = cols B.

(** Invariants of the nested loops that store one value per position.
    Iteration [(i', j')] comes before iteration [(i, j)] when the inner
    loop has [m] iterations; [stored] holds of the matrix [r] reached
    just before iteration [(i, j)] from [r0]: the iterations before have
    stored their values, the other positions are as in [r0]. *)
Definition before (m i j i' j' : nat) : Prop :=
  (i' < i /\ j' < m) \/ (i' = i /\ j' < j).

Definition stored (R C n m : nat) (pos : nat -> nat -> nat * nat)
    (val : nat -> nat -> float) (r0 : Matrix) (i j : nat) (r : Matrix) : Prop :=
  wf r /\ rows r = R /\ cols r = C /\
  (forall i' j', i' < n -> before m i j i' j' ->
     elem r (fst (pos i' j')) (snd (pos i' j')) = Some (val i' j')) /\
  (forall a b, (forall i' j', i' < n -> before m i j i' j' -> pos i' j' <> (a, b)) ->
     elem r a b = elem r0 a b).

(** The sizes [r x c] that the two vectors of a matrix can have. *)
Definition within_max_size (r c : nat) : Prop :=
  (N.of_nat r <= vector_max_size sizeof_vector)%N /\
  (N.of_nat c <= vector_max_size sizeof_double)%N.

(** A binary operation [f] commutes with [transpose] on [A] and [B]:
    transposing the result is applying [f] to the transposes. *)
Definition commutes_with_transpose (f : Matrix -> Matrix -> outcome Matrix)
    (A B : Matrix) : Prop :=
  exists R TR TA TB,
    f A B = Ret R /\ transpose R = Ret TR /\
    transpose A = Ret TA /\ transpose B = Ret TB /\
    f TA TB = Ret TR.

(** The generator after [k] draws, and the value of draw number [k]
    (counted from 0), for a source of values [draw]. *)
Definition gen_after {G} (draw : G -> float * G) (k : nat) (g : G) : G :=
  Nat.iter k (fun g' => snd (draw g')) g.

Definition draw_at {G} (draw : G -> float * G) (k : nat) (g : G) : float :=
  fst (draw (gen_after draw k g)).

(** Invariant of the nested loops that store one draw per position of
    the first [k] columns: just before iteration [(i, j)] the generator
    has been used [i * k + j] times, the positions visited hold their
    draws and the columns from [k] on are as in [m0]. *)
Definition drawn {G} (draw : G -> float * G) (n k : nat) (m0 : Matrix) (g0 : G)
    (i j : nat) (s : Matrix * G) : Prop :=
  wf (fst s) /\ rows (fst s) = rows m0 /\ cols (fst s) = cols m0 /\
  snd s = gen_after draw (i * k + j) g0 /\
  (forall i' j', i' < n -> before k i j i' j' ->
     elem (fst s) i' j' = Some (draw_at draw (i' * k + j') g0)) /\
  (forall a b, k <= b -> elem (fst s) a b = elem m0 a b).

(** [operator+], [operator-] and [hadamard] differ in the operation
    applied at each position only; this is their common shape. *)
Definition elementwise (op : float -> float -> float) (this other : Matrix)
    : outcome Matrix :=
  if negb (rows this =? rows other) || negb (cols this =? cols other)
  then Throw dimensions_do_not_match
  else
    with_local (Matrix_zero (rows this) (cols this))
      (for_lt (rows this) (fun i =>
       for_lt (cols this) (fun j =>
         a <- lift (vector_read (data this) i j) ;;
         b <- lift (at_const other i j) ;;
         at_write i j (op a b)))).

(** ** Concrete matrices used below *)

Definition A22 : Matrix := mkMatrix [[1; 2]; [3; 4]]%float 2 2.
Definition B22 : Matrix := mkMatrix [[5; 6]; [7; 8]]%float 2 2.
Definition C23 : Matrix := mkMatrix [[1; 2; 3]; [4; 5; 6]]%float 2 3.
Definition D21 : Matrix := mkMatrix [[1]; [2]]%float 2 1.

(** * Reasoning principles *)

(** ** Loops *)

Section Loops.

Context {S : Type}.

Lemma bind_ret {A B} (c : M S A) (k : A -> M S B) s s' a :
  c s = (s', Ret a) -> bind c k s = k a s'.
Proof. intros H. unfold bind. by rewrite H. Qed.

Lemma bind_undef {A B} (c : M S A) (k : A -> M S B) s s' u :
  c s = (s', Undef u) -> bind c k s = (s', Undef u).
Proof. intros H. unfold bind. by rewrite H. Qed.

Lemma bind_throw {A B} (c : M S A) (k : A -> M S B) s s' e :
  c s = (s', Throw e) -> bind c k s = (s', Throw e).
Proof. intros H. unfold bind. by rewrite H. Qed.

(** The invariant rule: an invariant that holds on entry and is kept by
    every iteration, each of which returns, holds on exit, and the loop
    returns. *)
Lemma for_each_seq_inv (I : nat -> S -> Prop) (body : nat -> M S unit) :
  forall k a s,
    I a s ->
    (forall i t, a <= i < a + k -> I i t ->
                 exists t', body i t = (t', Ret tt) /\ I (Datatypes.S i) t') ->
    exists s', for_each (seq a k) body s = (s', Ret tt) /\ I (a + k) s'.
Proof.
  induction k as [|k IH]; intros a s Ha Hbody; simpl.
  - exists s. rewrite Nat.add_0_r. by split.
  - destruct (Hbody a s) as (t & Ht & HI); [lia | done |].
    destruct (IH (Datatypes.S a) t HI) as (s' & Hs' & HI').
    { intros i u Hi. apply Hbody. lia. }
    exists s'. split.
    + by rewrite (bind_ret _ _ _ _ _ Ht).
    + by replace (a + Datatypes.S k) with (Datatypes.S a + k) by lia.
Qed.

Lemma for_lt_inv (I : nat -> S -> Prop) (n : nat) (body : nat -> M S unit) s :
  I 0 s ->
  (forall i t, i < n -> I i t ->
               exists t', body i t = (t', Ret tt) /\ I (Datatypes.S i) t') ->
  exists s', for_lt n body s = (s', Ret tt) /\ I n s'.
Proof.
  intros H0 Hbody.
  destruct (for_each_seq_inv I body n 0 s H0) as (s' & Hs' & HI).
  - intros i t Hi. apply Hbody. lia.
  - by exists s'.
Qed.

(** A loop whose condition is false on entry returns at once, whatever
    the fuel left. *)
Lemma for_loop_exit fuel (cond : N -> M S bool) body i s s' :
  cond i s = (s', Ret false) ->
  for_loop (Datatypes.S fuel) cond body i s = (s', Ret tt).
Proof. intros H. simpl. by rewrite (bind_ret _ _ _ _ _ H). Qed.

(** The comparison loop is the general loop with the test [i < n]. *)
Lemma for_loop_lt (body : nat -> M S unit) :
  forall k a fuel s,
    k < fuel ->
    (N.of_nat (a + k) < size_t_modulus)%N ->
    for_loop fuel (fun i => ret (N.to_nat i <? a + k))
      (fun i => body (N.to_nat i)) (N.of_nat a) s
    = for_each (seq a k) body s.
Proof.
  induction k as [|k IH]; intros a fuel s Hfuel Hrange.
  - destruct fuel as [|fuel]; [lia |]. simpl.
    unfold bind, ret. rewrite Nat2N.id, Nat.add_0_r.
    by rewrite Nat.ltb_irrefl.
  - destruct fuel as [|fuel]; [lia |]. simpl.
    unfold bind at 1, ret at 1. rewrite Nat2N.id.
    destruct (Nat.ltb_spec a (a + Datatypes.S k)) as [_|]; [|lia].
    unfold bind.
    destruct (body a s) as [t [[] | e | u |]]; try done.
    fold (@bind S).
    replace ((N.of_nat a + 1) mod size_t_modulus)%N
      with (N.of_nat (Datatypes.S a)).
    + replace (a + Datatypes.S k) with (Datatypes.S a + k) by lia.
      apply IH; [lia |].
      by replace (Datatypes.S a + k) with (a + Datatypes.S k) by lia.
    + rewrite N.mod_small; lia.
Qed.

End Loops.

(** ** Elements of a well-formed matrix *)

Lemma wfb_wf m : wfb m = true <-> wf m.
Proof.
  unfold wfb, wf. rewrite andb_true_iff, Nat.eqb_eq, forallb_forall.
  rewrite Forall_forall.
  split; intros [H1 H2]; split; try done; intros r Hr.
  - apply Nat.eqb_eq, H2. by apply list_elem_of_In.
  - apply Nat.eqb_eq, H2. by apply list_elem_of_In.
Qed.

Lemma wf_row m i r : wf m -> data m !! i = Some r -> length r = cols m.
Proof. intros [_ H] Hi. by apply (Forall_lookup_1 _ _ _ _ H Hi). Qed.

Lemma wf_row_lookup m i : wf m -> i < rows m -> exists r, data m !! i = Some r /\ length r = cols m.
Proof.
  intros Hwf Hi. destruct (lookup_lt_is_Some_2 (data m) i) as [r Hr].
  - destruct Hwf as [-> _]. done.
  - exists r. split; [done | by eapply wf_row].
Qed.

Lemma elem_is_Some m i j : wf m -> i < rows m -> j < cols m -> is_Some (elem m i j).
Proof.
  intros Hwf Hi Hj. destruct (wf_row_lookup m i Hwf Hi) as (r & Hr & Hlen).
  unfold elem. rewrite Hr. apply lookup_lt_is_Some_2. lia.
Qed.

Lemma vector_read_elem m i j x : elem m i j = Some x -> vector_read (data m) i j = Ret x.
Proof.
  unfold elem, vector_read. destruct (data m !! i) as [r|]; [|done].
  by intros ->.
Qed.

Lemma at_const_elem m i j x :
  i < rows m -> j < cols m -> elem m i j = Some x -> at_const m i j = Ret x.
Proof.
  intros Hi Hj Hx. unfold at_const.
  destruct (Nat.leb_spec (rows m) i); [lia |].
  destruct (Nat.leb_spec (cols m) j); [lia |].
  simpl. by apply vector_read_elem.
Qed.

Lemma at_const_Ret m i j x :
  wf m -> at_const m i j = Ret x -> i < rows m /\ j < cols m /\ elem m i j = Some x.
Proof.
  intros Hwf. unfold at_const.
  destruct (Nat.leb_spec (rows m) i); [done |].
  destruct (Nat.leb_spec (cols m) j); [done |].
  simpl. unfold vector_read, elem.
  destruct (data m !! i) as [r|]; [|done].
  destruct (r !! j); [|done]. intros [= ->]. done.
Qed.

Lemma data_write_store m i j x :
  wf m -> i < rows m -> j < cols m -> data_write i j x m = (store m i j x, Ret tt).
Proof.
  intros Hwf Hi Hj. destruct (wf_row_lookup m i Hwf Hi) as (r & Hr & Hlen).
  unfold data_write, vector_write. rewrite Hr.
  destruct (decide (j < length r)) as [_|]; [|lia].
  unfold store. do 2 f_equal.
  apply list_eq. intros k. destruct (decide (i = k)) as [<-|Hne].
  - rewrite list_lookup_insert_eq by (by eapply lookup_lt_Some).
    by rewrite list_lookup_alter_eq, Hr.
  - by rewrite list_lookup_insert_ne, list_lookup_alter_ne.
Qed.

Lemma at_write_store m i j x :
  wf m -> i < rows m -> j < cols m -> at_write i j x m = (store m i j x, Ret tt).
Proof.
  intros Hwf Hi Hj. unfold at_write.
  destruct (Nat.leb_spec (rows m) i); [lia |].
  destruct (Nat.leb_spec (cols m) j); [lia |].
  simpl. by apply data_write_store.
Qed.

Lemma wf_store m i j x : wf m -> wf (store m i j x).
Proof.
  intros [Hlen Hrows]. split; simpl.
  - by rewrite length_alter.
  - apply Forall_lookup. intros k r.
    destruct (decide (i = k)) as [<-|Hne].
    + rewrite list_lookup_alter_eq.
      destruct (data m !! i) as [r0|] eqn:Hr0; [|done].
      intros [= <-]. rewrite length_insert.
      by apply (Forall_lookup_1 _ _ _ _ Hrows Hr0).
    + rewrite list_lookup_alter_ne by done.
      intros Hr. by apply (Forall_lookup_1 _ _ _ _ Hrows Hr).
Qed.

Lemma elem_store_eq m i j x :
  wf m -> i < rows m -> j < cols m -> elem (store m i j x) i j = Some x.
Proof.
  intros Hwf Hi Hj. destruct (wf_row_lookup m i Hwf Hi) as (r & Hr & Hlen).
  unfold elem, store. simpl. rewrite list_lookup_alter_eq, Hr. simpl.
  apply list_lookup_insert_eq. lia.
Qed.

Lemma elem_store_ne m i j x i' j' :
  (i, j) <> (i', j') -> elem (store m i j x) i' j' = elem m i' j'.
Proof.
  intros Hne. unfold elem, store. simpl.
  destruct (decide (i = i')) as [<-|Hi].
  - rewrite list_lookup_alter_eq. destruct (data m !! i) as [r|]; [|done].
    simpl. apply list_lookup_insert_ne. congruence.
  - by rewrite list_lookup_alter_ne.
Qed.

(** Two well-formed matrices of one shape with the same elements are the
    same matrix. *)
Lemma Matrix_ext m1 m2 :
  wf m1 -> wf m2 -> rows m1 = rows m2 -> cols m1 = cols m2 ->
  (forall i j, i < rows m1 -> j < cols m1 -> elem m1 i j = elem m2 i j) ->
  m1 = m2.
Proof.
  destruct m1 as [d1 r1 c1], m2 as [d2 r2 c2]. simpl.
  intros Hwf1 Hwf2 -> -> Helem. f_equal.
  apply (list_eq_same_length _ _ r2); [apply (proj1 Hwf2) | apply (proj1 Hwf1) |].
  intros i x y Hi Hx Hy.
  apply (list_eq_same_length _ _ c2).
  - apply (wf_row _ i _ Hwf2 Hy).
  - apply (wf_row _ i _ Hwf1 Hx).
  - intros j a b Hj Ha Hb.
    specialize (Helem i j Hi Hj). unfold elem in Helem. simpl in Helem.
    rewrite Hx, Hy in Helem. congruence.
Qed.

(** The constructors build well-formed matrices. *)
Lemma data_Matrix_value r c v : data (Matrix_value r c v) = replicate r (replicate c v).
Proof. unfold Matrix_value, vector_resize, vector_fill. simpl. by rewrite take_nil, Nat.sub_0_r. Qed.

Lemma wf_Matrix_value r c v : wf (Matrix_value r c v).
Proof.
  split; rewrite data_Matrix_value; simpl.
  - by rewrite length_replicate.
  - apply Forall_replicate. by rewrite length_replicate.
Qed.

Lemma elem_Matrix_value r c v i j :
  i < r -> j < c -> elem (Matrix_value r c v) i j = Some v.
Proof.
  intros Hi Hj. unfold elem. rewrite data_Matrix_value.
  rewrite lookup_replicate_2 by done. by apply lookup_replicate_2.
Qed.

(** ** Loops that store one value per position *)

Section StoreLoops.

(** Shape of the matrix the loops write to. *)
Variables R C : nat.
(** Bounds of the outer and inner loop. *)
Variables n m : nat.
(** The position written and the value stored at iteration [(i, j)]. *)
Variable pos : nat -> nat -> nat * nat.
Variable val : nat -> nat -> float.
Variable body : nat -> nat -> M Matrix unit.

Hypothesis body_store :
  forall i j r, i < n -> j < m -> wf r -> rows r = R -> cols r = C ->
    body i j r = (store r (fst (pos i j)) (snd (pos i j)) (val i j), Ret tt).
Hypothesis pos_valid :
  forall i j, i < n -> j < m -> fst (pos i j) < R /\ snd (pos i j) < C.
Hypothesis pos_inj :
  forall i j i' j', i < n -> j < m -> i' < n -> j' < m ->
    pos i j = pos i' j' -> i = i' /\ j = j'.

Local Abbreviation before := (before m).
Local Abbreviation stored := (stored R C n m pos val).

Lemma stored_step r0 i j r :
  i < n -> j < m -> stored r0 i j r ->
  stored r0 i (Datatypes.S j) (store r (fst (pos i j)) (snd (pos i j)) (val i j)).
Proof.
  intros Hi Hj (Hwf & HR & HC & Hdone & Hrest).
  destruct (pos_valid i j Hi Hj) as [Hp1 Hp2].
  split; [by apply wf_store |]. do 2 (split; [done |]). split.
  - intros i' j' Hi' Hb.
    destruct (decide (pos i j = pos i' j')) as [Heq|Hne].
    + assert (Hj' : j' < m) by (destruct Hb as [[_ H]|[_ H]]; lia).
      destruct (pos_inj i j i' j' Hi Hj Hi' Hj' Heq) as [<- <-].
      apply elem_store_eq; [done | lia | lia].
    + rewrite elem_store_ne.
      * apply Hdone; [done |]. destruct Hb as [Hb|[-> Hb]]; [by left |].
        right. split; [done |]. destruct (decide (j' = j)) as [->|]; [done | lia].
      * intros Heq. apply Hne. by destruct (pos i j), (pos i' j').
  - intros a b Hab. rewrite elem_store_ne.
    + apply Hrest. intros i' j' Hi' Hb. apply Hab; [done |].
      destruct Hb as [Hb|[-> Hb]]; [by left | right; split; [done | lia]].
    + intros Heq. apply (Hab i j Hi); [right; split; [done | lia] |].
      by destruct (pos i j).
Qed.

Lemma stored_next_row r0 i r : stored r0 i m r -> stored r0 (Datatypes.S i) 0 r.
Proof.
  intros (Hwf & HR & HC & Hdone & Hrest). do 3 (split; [done |]).
  assert (Hb : forall i' j', before (Datatypes.S i) 0 i' j' -> before i m i' j').
  { intros i' j' [[H1 H2]|[_ H]]; [|lia].
    destruct (decide (i' = i)) as [->|]; [by right | left; lia]. }
  split.
  - intros i' j' Hi' H. apply Hdone; auto.
  - intros a b H. apply Hrest. intros i' j' Hi' H'. apply H; [done |].
    destruct H' as [[H1 H2]|[-> H2]]; left; lia.
Qed.

Lemma store_loops r0 :
  wf r0 -> rows r0 = R -> cols r0 = C ->
  exists r,
    for_lt n (fun i => for_lt m (body i)) r0 = (r, Ret tt) /\
    wf r /\ rows r = R /\ cols r = C /\
    (forall i j, i < n -> j < m ->
       elem r (fst (pos i j)) (snd (pos i j)) = Some (val i j)) /\
    (forall a b, (forall i j, i < n -> j < m -> pos i j <> (a, b)) ->
       elem r a b = elem r0 a b).
Proof.
  intros Hwf HR HC.
  destruct (for_lt_inv (fun i r => stored r0 i 0 r) n
              (fun i => for_lt m (body i)) r0) as (r & Hr & HI).
  - do 3 (split; [done |]). split.
    + intros i' j' _ [[H _]|[_ H]]; lia.
    + done.
  - intros i t Hi Ht.
    destruct (for_lt_inv (fun j r => stored r0 i j r) m (body i) t Ht)
      as (t' & Ht' & HI).
    + intros j u Hj Hu. eexists. split.
      * destruct Hu as (Hwfu & HRu & HCu & _). by apply body_store.
      * by apply stored_step.
    + exists t'. split; [done |]. by apply stored_next_row.
  - exists r. split; [done |].
    destruct HI as (Hwfr & HRr & HCr & Hdone & Hrest).
    do 3 (split; [done |]). split.
    + intros i j Hi Hj. apply Hdone; [done |]. left. lia.
    + intros a b H. apply Hrest. intros i' j' Hi' [[H1 H2]|[-> H2]]; [|lia].
      by apply H.
Qed.

End StoreLoops.

(** ** A single loop of stores *)

Lemma for_each_ext {S} (f g : nat -> M S unit) idx s :
  (forall i t, f i t = g i t) -> for_each idx f s = for_each idx g s.
Proof.
  intros Hfg. revert s. induction idx as [|i idx IH]; intros s; [done |].
  simpl. unfold bind. rewrite Hfg.
  destruct (g i s) as [t [[] | e | u |]]; auto.
Qed.

Lemma for_lt_one {S} (f : nat -> M S unit) s : for_lt 1 f s = f 0 s.
Proof.
  unfold for_lt. simpl. unfold bind, ret.
  by destruct (f 0 s) as [t [[] | e | u |]].
Qed.

Lemma store_loop (R C n : nat) (pos : nat -> nat * nat) (val : nat -> float)
    (body : nat -> M Matrix unit) r0 :
  (forall i r, i < n -> wf r -> rows r = R -> cols r = C ->
     body i r = (store r (fst (pos i)) (snd (pos i)) (val i), Ret tt)) ->
  (forall i, i < n -> fst (pos i) < R /\ snd (pos i) < C) ->
  (forall i i', i < n -> i' < n -> pos i = pos i' -> i = i') ->
  wf r0 -> rows r0 = R -> cols r0 = C ->
  exists r,
    for_lt n body r0 = (r, Ret tt) /\
    wf r /\ rows r = R /\ cols r = C /\
    (forall i, i < n -> elem r (fst (pos i)) (snd (pos i)) = Some (val i)) /\
    (forall a b, (forall i, i < n -> pos i <> (a, b)) -> elem r a b = elem r0 a b).
Proof.
  intros Hbody Hpos Hinj Hwf HR HC.
  destruct (store_loops R C n 1 (fun i _ => pos i) (fun i _ => val i)
              (fun i _ => body i)) with (r0 := r0)
    as (r & Hr & Hwfr & HRr & HCr & Hdone & Hrest); try done.
  - intros i j r Hi _. by apply Hbody.
  - intros i j Hi _. by apply Hpos.
  - intros i j i' j' Hi Hj Hi' Hj' Heq. split; [by apply Hinj | lia].
  - exists r. split.
    + rewrite <- Hr. unfold for_lt at 1 2. apply for_each_ext.
      intros i t. by rewrite for_lt_one.
    + do 3 (split; [done |]). split.
      * intros i Hi. apply (Hdone i 0 Hi). lia.
      * intros a b H. apply Hrest. intros i j Hi _. by apply H.
Qed.

(** ** What the operations compute *)

Lemma elem_get m i j : wf m -> i < rows m -> j < cols m -> elem m i j = Some (get m i j).
Proof.
  intros Hwf Hi Hj. unfold get.
  by destruct (elem_is_Some m i j Hwf Hi Hj) as [x ->].
Qed.

Lemma at_const_get m i j : wf m -> i < rows m -> j < cols m -> at_const m i j = Ret (get m i j).
Proof. intros Hwf Hi Hj. apply at_const_elem; try done. by apply elem_get. Qed.

Lemma vector_read_get m i j :
  wf m -> i < rows m -> j < cols m -> vector_read (data m) i j = Ret (get m i j).
Proof. intros Hwf Hi Hj. by apply vector_read_elem, elem_get. Qed.

Lemma pair_neq_inv (a b c d : nat) : (a, b) = (c, d) -> a = c /\ b = d.
Proof. by intros [= -> ->]. Qed.

Lemma operator_plus_elementwise A B :
  operator_plus A B = elementwise PrimFloat.add A B.
Proof. reflexivity. Qed.

Lemma operator_minus_elementwise A B :
  operator_minus A B = elementwise PrimFloat.sub A B.
Proof. reflexivity. Qed.

Lemma hadamard_elementwise A B :
  hadamard A B = elementwise PrimFloat.mul A B.
Proof. reflexivity. Qed.

(** [operator+], [operator-], [hadamard] on operands of one shape. *)
Lemma elementwise_spec op A B :
  wf A -> wf B -> rows A = rows B -> cols A = cols B ->
  exists r,
    elementwise op A B = Ret r /\ wf r /\ rows r = rows A /\ cols r = cols A /\
    forall i j, i < rows A -> j < cols A ->
      elem r i j = Some (op (get A i j) (get B i j)).
Proof.
  intros HA HB Hrows Hcols. unfold elementwise.
  rewrite Hrows, Hcols, !Nat.eqb_refl. simpl. rewrite <- Hrows, <- Hcols.
  destruct (store_loops (rows A) (cols A) (rows A) (cols A) (fun i j => (i, j))
              (fun i j => op (get A i j) (get B i j))
              (fun i j =>
                 a <- lift (vector_read (data A) i j) ;;
                 b <- lift (at_const B i j) ;;
                 at_write i j (op a b)))
    with (r0 := Matrix_zero (rows A) (cols A))
    as (r & Hr & Hwfr & HRr & HCr & Hdone & _); try done.
  - intros i j r Hi Hj Hwf HR HC. unfold bind, lift.
    rewrite vector_read_get, at_const_get by (done || lia).
    simpl. apply at_write_store; (done || lia).
  - intros i j i' j' _ _ _ _. apply pair_neq_inv.
  - apply wf_Matrix_value.
  - exists r. unfold with_local. rewrite Hr. by repeat (split; [done |]).
Qed.

(** [operator*(double)]. *)
Lemma operator_mul_scalar_spec A s :
  wf A ->
  exists r,
    operator_mul_scalar A s = Ret r /\ wf r /\ rows r = rows A /\ cols r = cols A /\
    forall i j, i < rows A -> j < cols A -> elem r i j = Some (get A i j * s)%float.
Proof.
  intros HA. unfold operator_mul_scalar.
  destruct (store_loops (rows A) (cols A) (rows A) (cols A) (fun i j => (i, j))
              (fun i j => (get A i j * s)%float)
              (fun i j =>
                 a <- lift (vector_read (data A) i j) ;;
                 at_write i j (a * s)%float))
    with (r0 := Matrix_zero (rows A) (cols A))
    as (r & Hr & Hwfr & HRr & HCr & Hdone & _); try done.
  - intros i j r Hi Hj Hwf HR HC. unfold bind, lift.
    rewrite vector_read_get by done.
    simpl. apply at_write_store; (done || lia).
  - intros i j i' j' _ _ _ _. apply pair_neq_inv.
  - apply wf_Matrix_value.
  - exists r. unfold with_local. rewrite Hr. by repeat (split; [done |]).
Qed.

(** [transpose]. *)
Lemma transpose_spec A :
  wf A ->
  exists r,
    transpose A = Ret r /\ wf r /\ rows r = cols A /\ cols r = rows A /\
    forall i j, i < rows A -> j < cols A -> elem r j i = Some (get A i j).
Proof.
  intros HA. unfold transpose.
  destruct (store_loops (cols A) (rows A) (rows A) (cols A) (fun i j => (j, i))
              (fun i j => get A i j)
              (fun i j =>
                 a <- lift (vector_read (data A) i j) ;;
                 at_write j i a))
    with (r0 := Matrix_zero (cols A) (rows A))
    as (r & Hr & Hwfr & HRr & HCr & Hdone & _); try done.
  - intros i j r Hi Hj Hwf HR HC. unfold bind, lift.
    rewrite vector_read_get by done.
    simpl. apply at_write_store; (done || lia).
  - intros i j i' j' _ _ _ _ H. apply pair_neq_inv in H. lia.
  - apply wf_Matrix_value.
  - exists r. unfold with_local. rewrite Hr. by repeat (split; [done |]).
Qed.

(** [fill]. *)
Lemma fill_spec value m :
  wf m ->
  exists r,
    fill value m = (r, Ret tt) /\ wf r /\ rows r = rows m /\ cols r = cols m /\
    forall i j, i < rows m -> j < cols m -> elem r i j = Some value.
Proof.
  intros Hm. unfold fill, bind, gets.
  destruct (store_loops (rows m) (cols m) (rows m) (cols m) (fun i j => (i, j))
              (fun _ _ => value) (fun i j => data_write i j value))
    with (r0 := m)
    as (r & Hr & Hwfr & HRr & HCr & Hdone & _); try done.
  - intros i j r Hi Hj Hwf HR HC. simpl. apply data_write_store; (done || lia).
  - intros i j i' j' _ _ _ _. apply pair_neq_inv.
  - exists r. by repeat (split; [done |]).
Qed.

(** [identity] on a square matrix. *)
Lemma identity_spec m :
  wf m -> rows m = cols m ->
  exists r,
    identity m = (r, Ret tt) /\ wf r /\ rows r = rows m /\ cols r = cols m /\
    forall i j, i < rows m -> j < cols m ->
      elem r i j = Some (if decide (i = j) then 1%float else 0%float).
Proof.
  intros Hm Hsq.
  destruct (fill_spec 0%float m Hm) as (z & Hz & Hwfz & HRz & HCz & Hzero).
  destruct (store_loop (rows m) (cols m) (rows m) (fun i => (i, i))
              (fun _ => 1%float) (fun i => data_write i i 1%float) z)
    as (r & Hr & Hwfr & HRr & HCr & Hdiag & Hoff); try done.
  - intros i r Hi Hwf HR HC. simpl. apply data_write_store; (done || lia).
  - intros i Hi. simpl. lia.
  - intros i i' _ _ H. by apply pair_neq_inv in H as [? _].
  - exists r. split.
    + unfold identity. unfold bind at 1 2, gets.
      rewrite Hsq, Nat.eqb_refl. simpl.
      rewrite (bind_ret _ _ _ _ _ Hz). by rewrite <- Hsq.
    + do 3 (split; [done |]). intros i j Hi Hj.
      destruct (decide (i = j)) as [<-|Hne].
      * by apply (Hdiag i).
      * rewrite Hoff; [by apply Hzero |].
        intros k _ H. apply pair_neq_inv in H. lia.
Qed.

(** [getCol] at a valid column. *)
Lemma getCol_spec A c :
  wf A -> c < cols A ->
  exists r,
    getCol A c = Ret r /\ wf r /\ rows r = rows A /\ cols r = 1 /\
    forall i, i < rows A -> elem r i 0 = Some (get A i c).
Proof.
  intros HA Hc. unfold getCol.
  destruct (Nat.leb_spec (cols A) c) as [|_]; [lia |].
  destruct (store_loop (rows A) 1 (rows A) (fun i => (i, 0))
              (fun i => get A i c)
              (fun i => a <- lift (vector_read (data A) i c) ;; at_write i 0 a)
              (Matrix_zero (rows A) 1))
    as (r & Hr & Hwfr & HRr & HCr & Hdone & _); try done.
  - intros i r Hi Hwf HR HC. unfold bind, lift.
    rewrite vector_read_get by done.
    simpl. apply at_write_store; (done || lia).
  - intros i Hi. simpl. lia.
  - intros i i' _ _ H. by apply pair_neq_inv in H as [? _].
  - apply wf_Matrix_value.
  - exists r. unfold with_local. rewrite Hr. by repeat (split; [done |]).
Qed.

(** [setCol] with a valid column and a column matrix of the right shape. *)
Lemma setCol_spec A c colMatrix :
  wf A -> wf colMatrix -> c < cols A ->
  cols colMatrix = 1 -> rows colMatrix = rows A ->
  exists r,
    setCol c colMatrix A = (r, Ret tt) /\ wf r /\ rows r = rows A /\ cols r = cols A /\
    (forall i, i < rows A -> elem r i c = Some (get colMatrix i 0)) /\
    (forall i j, j <> c -> elem r i j = elem A i j).
Proof.
  intros HA HC Hc Hcols Hrows. unfold setCol, bind, gets, getCols, getRows.
  destruct (Nat.leb_spec (cols A) c) as [|_]; [lia |].
  rewrite Hcols, Hrows, !Nat.eqb_refl. simpl.
  destruct (store_loop (rows A) (cols A) (rows A) (fun i => (i, c))
              (fun i => get colMatrix i 0)
              (fun i => a <- lift (at_const colMatrix i 0) ;; data_write i c a)
              A)
    as (r & Hr & Hwfr & HRr & HCr & Hdone & Hrest); try done.
  - intros i r Hi Hwf HR HC'. unfold bind, lift.
    rewrite at_const_get by (done || lia).
    simpl. apply data_write_store; (done || lia).
  - intros i i' _ _ H. by apply pair_neq_inv in H as [? _].
  - exists r. do 4 (split; [done |]). split; [done |].
    intros i j Hj. apply Hrest. intros k _ H. apply pair_neq_inv in H. lia.
Qed.

(** [resize] within the size limits, and beyond each of them. *)
Lemma resize_spec newRows newCols m :
  within_max_size newRows newCols ->
  resize newRows newCols m = (Matrix_zero newRows newCols, Ret tt).
Proof.
  intros [Hr Hc].
  unfold resize, bind, set_rows, set_cols, set_data, gets, lift,
    vector_fill_checked, vector_resize_checked.
  cbn [fst snd data rows cols length].
  destruct (N.ltb_spec (vector_max_size sizeof_double) (N.of_nat newCols)); [lia |].
  rewrite Nat.sub_0_r.
  destruct (N.ltb_spec (vector_max_size sizeof_vector - N.of_nat 0)
              (N.of_nat newRows)); [lia |].
  reflexivity.
Qed.

Lemma resize_cols_too_large newRows newCols m :
  (vector_max_size sizeof_double < N.of_nat newCols)%N ->
  resize newRows newCols m = (mkMatrix [] newRows newCols, Throw cannot_create_vector).
Proof.
  intros Hc.
  unfold resize, bind, set_rows, set_cols, set_data, gets, lift, vector_fill_checked.
  cbn [fst snd data rows cols length].
  destruct (N.ltb_spec (vector_max_size sizeof_double) (N.of_nat newCols)); [|lia].
  reflexivity.
Qed.

Lemma resize_rows_too_large newRows newCols m :
  (N.of_nat newCols <= vector_max_size sizeof_double)%N ->
  (vector_max_size sizeof_vector < N.of_nat newRows)%N ->
  resize newRows newCols m = (mkMatrix [] newRows newCols, Throw fill_insert_too_long).
Proof.
  intros Hc Hr.
  unfold resize, bind, set_rows, set_cols, set_data, gets, lift,
    vector_fill_checked, vector_resize_checked.
  cbn [fst snd data rows cols length].
  destruct (N.ltb_spec (vector_max_size sizeof_double) (N.of_nat newCols)); [lia |].
  rewrite Nat.sub_0_r.
  destruct (N.ltb_spec (vector_max_size sizeof_vector - N.of_nat 0)
              (N.of_nat newRows)); [|lia].
  reflexivity.
Qed.

(** ** Loops that do not return *)

Section LoopExits.

Context {S : Type}.

(** A loop whose iterations before [k] return and whose iteration [k]
    runs into undefined behaviour stops there. *)
Lemma for_each_seq_undef (I : nat -> S -> Prop) (body : nat -> M S unit) u :
  forall k a n s,
    a + k < a + n ->
    I a s ->
    (forall i t, a <= i < a + k -> I i t ->
                 exists t', body i t = (t', Ret tt) /\ I (Datatypes.S i) t') ->
    (forall t, I (a + k) t -> exists t', body (a + k) t = (t', Undef u)) ->
    exists s', for_each (seq a n) body s = (s', Undef u).
Proof.
  induction k as [|k IH]; intros a n s Hk Ha Hbody Hundef.
  - destruct n as [|n]; [lia |]. simpl.
    rewrite Nat.add_0_r in Hundef. destruct (Hundef s Ha) as (t & Ht).
    exists t. by rewrite (bind_undef _ _ _ _ _ Ht).
  - destruct n as [|n]; [lia |]. simpl.
    destruct (Hbody a s) as (t & Ht & HI); [lia | done |].
    rewrite (bind_ret _ _ _ _ _ Ht).
    apply (IH (Datatypes.S a) n t); [lia | done | |].
    + intros i v Hi. apply Hbody. lia.
    + replace (Datatypes.S a + k) with (a + Datatypes.S k) by lia. done.
Qed.

Lemma for_lt_undef (I : nat -> S -> Prop) (body : nat -> M S unit) u k n s :
  k < n ->
  I 0 s ->
  (forall i t, i < k -> I i t ->
               exists t', body i t = (t', Ret tt) /\ I (Datatypes.S i) t') ->
  (forall t, I k t -> exists t', body k t = (t', Undef u)) ->
  exists s', for_lt n body s = (s', Undef u).
Proof.
  intros Hk H0 Hbody Hundef.
  apply (for_each_seq_undef I body u k 0 n s); try done.
  intros i t Hi. apply Hbody. lia.
Qed.

(** A loop throws only what its body throws. *)
Lemma for_each_throw (P : exception -> Prop) (body : nat -> M S unit) :
  (forall i s s' e, body i s = (s', Throw e) -> P e) ->
  forall idx s s' e, for_each idx body s = (s', Throw e) -> P e.
Proof.
  intros Hbody. induction idx as [|i idx IH]; intros s s' e; simpl.
  - by intros [= ].
  - unfold bind. destruct (body i s) as [t [[] | e' | u |]] eqn:Hb; try done.
    + apply IH.
    + intros [= _ <-]. by apply (Hbody i s t).
Qed.

End LoopExits.

(** What the element accessors can throw. *)
Lemma at_write_throw row col x m m' e :
  at_write row col x m = (m', Throw e) -> exn_class e = out_of_range.
Proof.
  unfold at_write, data_write.
  destruct ((rows m <=? row) || (cols m <=? col)); [intros H; by simplify_eq |].
  unfold vector_write. destruct (data m !! row) as [r|]; [|done].
  by destruct (decide (col < length r)).
Qed.

Lemma at_const_throw m row col e :
  at_const m row col = Throw e -> exn_class e = out_of_range.
Proof.
  unfold at_const, vector_read.
  destruct ((rows m <=? row) || (cols m <=? col)); [intros H; by simplify_eq |].
  destruct (data m !! row) as [r|]; [|done]. by destruct (r !! col).
Qed.

Lemma vector_read_throw d i j e : vector_read d i j <> Throw e.
Proof.
  unfold vector_read. destruct (d !! i) as [r|]; [|done]. by destruct (r !! j).
Qed.

(** The element-wise loops and the scaling loops throw nothing but
    [out_of_range]. *)
Lemma elementwise_loops_throw op A B r r' e :
  for_lt (rows A) (fun i =>
    for_lt (cols A) (fun j =>
      a <- lift (vector_read (data A) i j) ;;
      b <- lift (at_const B i j) ;;
      at_write i j (op a b))) r = (r', Throw e) ->
  exn_class e = out_of_range.
Proof.
  apply (for_each_throw (fun e => exn_class e = out_of_range)).
  intros i s s' e'.
  apply (for_each_throw (fun e => exn_class e = out_of_range)).
  intros j t t' e''. unfold bind, lift.
  destruct (vector_read (data A) i j) as [a | ? | ? |] eqn:Ha; try done.
  - destruct (at_const B i j) as [b | ? | ? |] eqn:Hb; try done.
    + apply at_write_throw.
    + intros [= _ <-]. by eapply at_const_throw.
  - by apply vector_read_throw in Ha.
Qed.

Lemma scalar_loops_throw A scalar r r' e :
  for_lt (rows A) (fun i =>
    for_lt (cols A) (fun j =>
      a <- lift (vector_read (data A) i j) ;;
      at_write i j (a * scalar)%float)) r = (r', Throw e) ->
  exn_class e = out_of_range.
Proof.
  apply (for_each_throw (fun e => exn_class e = out_of_range)).
  intros i s s' e'.
  apply (for_each_throw (fun e => exn_class e = out_of_range)).
  intros j t t' e''. unfold bind, lift.
  destruct (vector_read (data A) i j) as [a | ? | ? |] eqn:Ha; try done.
  - apply at_write_throw.
  - by apply vector_read_throw in Ha.
Qed.

Lemma with_local_throw {S} (init : S) body e :
  with_local init body = Throw e -> exists s, body init = (s, Throw e).
Proof.
  unfold with_local. destruct (body init) as [s [[] | e' | u |]]; try done.
  intros [= ->]. by exists s.
Qed.

Lemma elementwise_guard op A B :
  ~ same_shape A B -> elementwise op A B = Throw dimensions_do_not_match.
Proof.
  intros Hne. unfold elementwise.
  destruct (Nat.eqb_spec (rows A) (rows B)); [|done].
  destruct (Nat.eqb_spec (cols A) (cols B)); [|done].
  by destruct Hne.
Qed.

Lemma elementwise_throw_iff op A B :
  elementwise op A B = Throw dimensions_do_not_match <-> ~ same_shape A B.
Proof.
  split; [|apply elementwise_guard].
  intros Hthrow [Hrows Hcols]. unfold elementwise in Hthrow.
  rewrite Hrows, Hcols, !Nat.eqb_refl in Hthrow. simpl in Hthrow.
  apply with_local_throw in Hthrow as [s Hs].
  rewrite <- Hrows, <- Hcols in Hs.
  by apply elementwise_loops_throw in Hs.
Qed.

(** The product loops are never entered: the first test [0 << rows] is
    zero, or undefined when [rows] reaches the width of [size_t]. *)
Lemma operator_mul_zero fuel A B :
  cols A = rows B -> rows A < 64 ->
  operator_mul (Datatypes.S fuel) A B = Ret (Matrix_zero (rows A) (cols B)).
Proof.
  intros Hinner Hsmall. unfold operator_mul.
  rewrite Hinner, Nat.eqb_refl. simpl negb. cbv iota.
  unfold with_local. rewrite for_loop_exit with (s' := Matrix_zero (rows A) (cols B)); [done |].
  unfold bind, lift, size_t_shl. destruct (decide (rows A < 64)); [|done].
  by rewrite N.shiftl_0_l.
Qed.

Lemma operator_mul_shift_undefined fuel A B :
  cols A = rows B -> 64 <= rows A ->
  operator_mul (Datatypes.S fuel) A B = Undef (shift_count (rows A)).
Proof.
  intros Hinner Hbig. unfold operator_mul.
  rewrite Hinner, Nat.eqb_refl. simpl negb. cbv iota.
  unfold with_local. simpl. unfold bind at 1. unfold bind at 1. unfold lift, size_t_shl.
  destruct (decide (rows A < 64)); [lia | done].
Qed.

Lemma operator_mul_throw_iff fuel A B :
  operator_mul fuel A B = Throw invalid_multiplication <-> cols A <> rows B.
Proof.
  split.
  - intros Hthrow Hinner. destruct fuel as [|fuel].
    + unfold operator_mul in Hthrow. by rewrite Hinner, Nat.eqb_refl in Hthrow.
    + destruct (decide (rows A < 64)) as [Hsmall|Hbig].
      * by rewrite operator_mul_zero in Hthrow.
      * rewrite operator_mul_shift_undefined in Hthrow; [done | done | lia].
  - intros Hne. unfold operator_mul.
    by destruct (Nat.eqb_spec (cols A) (rows B)).
Qed.

(** ** The random initialisers *)

Section RandomFacts.

Variable mt19937 : Type.
Variable uniform_real_distribution : float -> float -> mt19937 -> float * mt19937.


(** One iteration of the inner loop at a valid position. *)
Lemma randomize_at_store min max i j (s : Matrix * mt19937) :
  wf (fst s) -> i < rows (fst s) -> j < cols (fst s) ->
  randomize_at mt19937 uniform_real_distribution min max i j s
  = ((store (fst s) i j (fst (uniform_real_distribution min max (snd s))),
      snd (uniform_real_distribution min max (snd s))), Ret tt).
Proof.
  intros Hwf Hi Hj. unfold randomize_at, bind, dis, on_matrix.
  destruct (uniform_real_distribution min max (snd s)) as [x g']. simpl.
  by rewrite data_write_store.
Qed.

(** One iteration of the inner loop at a column past the end of the
    row: the store is outside the row. *)
Lemma randomize_at_past_end min max i j (s : Matrix * mt19937) :
  wf (fst s) -> i < rows (fst s) -> cols (fst s) <= j ->
  exists s',
    randomize_at mt19937 uniform_real_distribution min max i j s
    = (s', Undef (vector_index (cols (fst s)) j)).
Proof.
  intros Hwf Hi Hj. unfold randomize_at, bind, dis, on_matrix.
  destruct (uniform_real_distribution min max (snd s)) as [x g']. simpl.
  destruct (wf_row_lookup _ i Hwf Hi) as (r & Hr & Hlen).
  unfold data_write, vector_write. rewrite Hr.
  destruct (decide (j < length r)) as [|_]; [lia |].
  rewrite Hlen. by eexists.
Qed.

Lemma randomize_row_undefined min max m g i :
  wf m -> i < rows m -> cols m < rows m ->
  exists s',
    randomize_row mt19937 uniform_real_distribution min max (rows m) i (m, g)
    = (s', Undef (vector_index (cols m) (cols m))).
Proof.
  intros Hwf Hi Hlt. unfold randomize_row.
  apply (for_lt_undef
           (fun _ s => wf (fst s) /\ rows (fst s) = rows m /\ cols (fst s) = cols m)
           _ _ (cols m)); [done | done | |].
  - intros j t Hj (Hwft & HR & HC). eexists. split.
    + apply randomize_at_store; (done || lia).
    + simpl. split; [by apply wf_store | done].
  - intros t (Hwft & HR & HC). rewrite <- HC.
    apply randomize_at_past_end; (done || lia).
Qed.

Lemma randomize_undefined min max m g :
  wf m -> cols m < rows m ->
  exists s',
    randomize mt19937 uniform_real_distribution min max (m, g) = (s', Undef (vector_index (cols m) (cols m))).
Proof.
  intros Hwf Hlt. unfold randomize, bind, on_matrix, gets. simpl.
  apply (for_lt_undef (fun _ s => s = (m, g)) _ _ 0); [lia | done | |].
  - intros i t Hi. lia.
  - intros t ->. apply randomize_row_undefined; (done || lia).
Qed.

(** On a matrix with no more rows than columns [randomize] returns and
    only touches the columns below [rows]. *)
Lemma randomize_frame min max m g :
  wf m -> rows m <= cols m ->
  exists m' g',
    randomize mt19937 uniform_real_distribution min max (m, g) = ((m', g'), Ret tt) /\
    wf m' /\ rows m' = rows m /\ cols m' = cols m /\
    forall i j, rows m <= j -> elem m' i j = elem m i j.
Proof.
  intros Hwf Hle. unfold randomize, bind, on_matrix, gets. simpl.
  set (Inv := fun s : Matrix * mt19937 =>
         wf (fst s) /\ rows (fst s) = rows m /\ cols (fst s) = cols m /\
         forall i j, rows m <= j -> elem (fst s) i j = elem m i j).
  destruct (for_lt_inv (fun _ s => Inv s) (rows m)
              (fun i => randomize_row mt19937 uniform_real_distribution min max (rows m) i)
              (m, g)) as ([m' g'] & Hrun & Hwf' & HR & HC & Hframe).
  - unfold Inv. simpl. by do 3 (split; [done |]).
  - intros i t Hi Ht. unfold randomize_row.
    apply (for_lt_inv (fun _ s => Inv s)); [done |].
    intros j u Hj (Hwfu & HRu & HCu & Hu). eexists. split.
    + apply randomize_at_store; (done || lia).
    + split; [by apply wf_store |]. do 2 (split; [done |]).
      intros a b Hb. simpl. rewrite elem_store_ne; [by apply Hu |].
      intros H. apply pair_neq_inv in H. lia.
  - by exists m', g'.
Qed.

Lemma xavierInit_undefined m g :
  wf m -> cols m < rows m ->
  exists s',
    xavierInit mt19937 uniform_real_distribution (m, g) = (s', Undef (vector_index (cols m) (cols m))).
Proof.
  intros Hwf Hlt. unfold xavierInit, bind at 1 2, on_matrix, gets. simpl.
  by apply randomize_undefined.
Qed.

End RandomFacts.

(** * The specification, claim by claim *)

(** C1.  The specification asks of [A.multiply(B)] the matrix product,
    [[19,22],[43,50]] for [A = [[1,2],[3,4]]] and [B = [[5,6],[7,8]]].
    The loops of [operator*] test [i << rows] and [j << other.cols]; the
    first test is [0 << 2 = 0], so no iteration runs and the zero-filled
    [result] is returned.  The same loops with [<] give the product. *)
Theorem operator_mul_returns_zero_matrix (fuel : nat) :
  operator_mul (S fuel) A22 B22 = Ret (mkMatrix [[0; 0]; [0; 0]]%float 2 2) /\
  matrix_product A22 B22 = Ret (mkMatrix [[19; 22]; [43; 50]]%float 2 2) /\
  operator_mul (S fuel) A22 B22 <> matrix_product A22 B22.
Proof.
  assert (Hzero : operator_mul (S fuel) A22 B22
                  = Ret (mkMatrix [[0; 0]; [0; 0]]%float 2 2)).
  { rewrite operator_mul_zero; [done | done | simpl; lia]. }
  assert (Hprod : matrix_product A22 B22
                  = Ret (mkMatrix [[19; 22]; [43; 50]]%float 2 2)).
  { by vm_compute. }
  split; [done |]. split; [done |].
  rewrite Hzero, Hprod. intros H.
  apply (f_equal (fun o => match o with
                           | Ret m => match elem m 0 0 with
                                      | Some x => PrimFloat.eqb x 0
                                      | None => false
                                      end
                           | _ => false
                           end)) in H.
  vm_compute in H. discriminate.
Qed.

(** C2.  The specification asks [randomize] to assign every element.  The
    inner loop runs [j] up to [rows], not [cols]: on a 1 x 2 matrix one
    value is drawn, it is stored at (0, 0), and the element at (0, 1)
    keeps the value it had, whatever the generator. *)
Theorem randomize_leaves_column_unwritten (mt19937 : Type)
    (uniform_real_distribution : float -> float -> mt19937 -> float * mt19937)
    (min max x y : float) (g : mt19937) :
  randomize mt19937 uniform_real_distribution min max (mkMatrix [[x; y]] 1 2, g)
  = ((mkMatrix [[fst (uniform_real_distribution min max g); y]] 1 2,
      snd (uniform_real_distribution min max g)), Ret tt).
Proof.
  cbv. by destruct (uniform_real_distribution min max g).
Qed.

(** C3.  On a matrix with more rows than columns the loops of
    [randomize] visit the columns [cols <= j < rows]; the store there is
    outside the row, in every row.  The call itself stops at the first
    of them, (0, cols), and so does [xavierInit], which calls it. *)
Theorem randomize_stores_past_row_end (mt19937 : Type)
    (uniform_real_distribution : float -> float -> mt19937 -> float * mt19937)
    (min max : float) (m : Matrix) (g : mt19937) :
  wf m -> cols m < rows m ->
  (forall i j, i < rows m -> cols m <= j < rows m ->
     j ∈ seq 0 (rows m) /\
     exists s', randomize_at mt19937 uniform_real_distribution min max i j (m, g)
                = (s', Undef (vector_index (cols m) j))) /\
  (exists s', randomize mt19937 uniform_real_distribution min max (m, g)
              = (s', Undef (vector_index (cols m) (cols m)))) /\
  (exists s', xavierInit mt19937 uniform_real_distribution (m, g)
              = (s', Undef (vector_index (cols m) (cols m)))).
Proof.
  intros Hwf Hlt. split; [|split].
  - intros i j Hi Hj. split.
    + apply elem_of_seq. lia.
    + apply (randomize_at_past_end _ _ min max i j (m, g)); (done || simpl; lia).
  - by apply randomize_undefined.
  - by apply xavierInit_undefined.
Qed.

Lemma randomize_stores_past_row_end_witness :
  (forall i j, i < rows D21 -> cols D21 <= j < rows D21 ->
     j ∈ seq 0 (rows D21) /\
     exists s', randomize_at nat (fun lo _ g => (lo, S g)) 0%float 1%float i j (D21, 0)
                = (s', Undef (vector_index (cols D21) j))) /\
  (exists s', randomize nat (fun lo _ g => (lo, S g)) 0%float 1%float (D21, 0)
              = (s', Undef (vector_index (cols D21) (cols D21)))) /\
  (exists s', xavierInit nat (fun lo _ g => (lo, S g)) (D21, 0)
              = (s', Undef (vector_index (cols D21) (cols D21)))).
Proof.
  apply (randomize_stores_past_row_end nat (fun lo _ g => (lo, S g))
           0%float 1%float D21 0).
  - by apply wfb_wf.
  - simpl. lia.
Defined.

(** C4.  [operator+] and [operator-] throw the dimension error exactly
    when the shapes differ, [operator*] exactly when [cols] of the left
    operand differs from [rows] of the right one; a call that throws
    returns no matrix. *)
Theorem dimension_mismatch_iff (A B : Matrix) :
  (operator_plus A B = Throw dimensions_do_not_match <-> ~ same_shape A B) /\
  (operator_minus A B = Throw dimensions_do_not_match <-> ~ same_shape A B) /\
  (forall fuel,
     operator_mul fuel A B = Throw invalid_multiplication <-> cols A <> rows B) /\
  (~ same_shape A B ->
     ~ is_Ret (operator_plus A B) /\ ~ is_Ret (operator_minus A B)) /\
  (cols A <> rows B -> forall fuel, ~ is_Ret (operator_mul fuel A B)).
Proof.
  rewrite operator_plus_elementwise, operator_minus_elementwise.
  split; [apply elementwise_throw_iff |].
  split; [apply elementwise_throw_iff |].
  split; [intros fuel; apply operator_mul_throw_iff |].
  split.
  - intros Hne. rewrite !elementwise_guard by done. simpl. tauto.
  - intros Hne fuel.
    rewrite (proj2 (operator_mul_throw_iff fuel A B) Hne). simpl. tauto.
Qed.

(** C5.  [operator/] throws the division error exactly when
    [scalar == 0.0], and is [operator*(1.0 / scalar)] otherwise. *)
Theorem operator_div_zero_iff (A : Matrix) (s : float) :
  (operator_div A s = Throw division_by_zero <-> (s =? 0)%float = true) /\
  ((s =? 0)%float = false -> operator_div A s = operator_mul_scalar A (1 / s)%float).
Proof.
  unfold operator_div. destruct (s =? 0)%float eqn:Hs.
  - split; [done |]. done.
  - split; [|done]. split; [|done].
    intros Hthrow. unfold operator_mul_scalar in Hthrow.
    apply with_local_throw in Hthrow as [r Hr].
    by apply scalar_loops_throw in Hr.
Qed.

(** C6.  When the shapes differ, [operator+=] and [operator-=] throw what
    [operator+] and [operator-] throw and the receiver is what it was. *)
Theorem in_place_failure_keeps_receiver (A B : Matrix) :
  ~ same_shape A B ->
  operator_plus A B = Throw dimensions_do_not_match /\
  operator_plus_assign B A = (A, Throw dimensions_do_not_match) /\
  operator_minus A B = Throw dimensions_do_not_match /\
  operator_minus_assign B A = (A, Throw dimensions_do_not_match).
Proof.
  intros Hne.
  assert (Hplus : operator_plus A B = Throw dimensions_do_not_match).
  { rewrite operator_plus_elementwise. by apply elementwise_guard. }
  assert (Hminus : operator_minus A B = Throw dimensions_do_not_match).
  { rewrite operator_minus_elementwise. by apply elementwise_guard. }
  repeat split; try done.
  - unfold operator_plus_assign, bind, gets, lift. simpl. by rewrite Hplus.
  - unfold operator_minus_assign, bind, gets, lift. simpl. by rewrite Hminus.
Qed.

Lemma in_place_failure_keeps_receiver_witness :
  operator_plus A22 C23 = Throw dimensions_do_not_match /\
  operator_plus_assign C23 A22 = (A22, Throw dimensions_do_not_match) /\
  operator_minus A22 C23 = Throw dimensions_do_not_match /\
  operator_minus_assign C23 A22 = (A22, Throw dimensions_do_not_match).
Proof.
  apply (in_place_failure_keeps_receiver A22 C23).
  unfold same_shape. simpl. lia.
Defined.

(** C7.  [identity] throws exactly on a matrix that is not square and
    then leaves it as it was; on a square matrix it returns and leaves 1.0
    on the diagonal and 0.0 elsewhere. *)
Theorem identity_square_iff (A : Matrix) :
  wf A ->
  (snd (identity A) = Throw identity_not_square <-> rows A <> cols A) /\
  (rows A <> cols A -> identity A = (A, Throw identity_not_square)) /\
  (rows A = cols A ->
     exists A',
       identity A = (A', Ret tt) /\ wf A' /\
       rows A' = rows A /\ cols A' = cols A /\
       forall i j, i < rows A -> j < cols A ->
         at_const A' i j = Ret (if decide (i = j) then 1%float else 0%float)).
Proof.
  intros Hwf.
  assert (Hthrow : rows A <> cols A -> identity A = (A, Throw identity_not_square)).
  { intros Hne. unfold identity, bind, gets.
    by destruct (Nat.eqb_spec (rows A) (cols A)). }
  assert (Hret : rows A = cols A ->
            exists A',
              identity A = (A', Ret tt) /\ wf A' /\
              rows A' = rows A /\ cols A' = cols A /\
              forall i j, i < rows A -> j < cols A ->
                at_const A' i j = Ret (if decide (i = j) then 1%float else 0%float)).
  { intros Hsq.
    destruct (identity_spec A Hwf Hsq) as (A' & HA' & Hwf' & HR & HC & Helem).
    exists A'. do 4 (split; [done |]). intros i j Hi Hj.
    apply at_const_elem; [lia | lia | by apply Helem]. }
  split; [|by split].
  split.
  - intros Hid Hsq. destruct (Hret Hsq) as (A' & HA' & _).
    by rewrite HA' in Hid.
  - intros Hne. by rewrite Hthrow.
Qed.

Lemma identity_square_iff_witness :
  (snd (identity A22) = Throw identity_not_square <-> rows A22 <> cols A22) /\
  (rows A22 <> cols A22 -> identity A22 = (A22, Throw identity_not_square)) /\
  (rows A22 = cols A22 ->
     exists A',
       identity A22 = (A', Ret tt) /\ wf A' /\
       rows A' = rows A22 /\ cols A' = cols A22 /\
       forall i j, i < rows A22 -> j < cols A22 ->
         at_const A' i j = Ret (if decide (i = j) then 1%float else 0%float)).
Proof.
  apply (identity_square_iff A22). by apply wfb_wf.
Defined.

(** [identity] on a square and on a non-square matrix. *)
Example identity_examples :
  identity A22 = (mkMatrix [[1; 0]; [0; 1]]%float 2 2, Ret tt) /\
  identity C23 = (C23, Throw identity_not_square).
Proof. by vm_compute. Qed.

(** C8.  At a valid column [c], [getCol(c)] returns a column matrix and
    [setCol(c, ...)] of that matrix returns and leaves the receiver as it
    was. *)
Theorem setCol_getCol (A : Matrix) (c : nat) :
  wf A -> c < cols A ->
  exists column,
    getCol A c = Ret column /\ setCol c column A = (A, Ret tt).
Proof.
  intros Hwf Hc.
  destruct (getCol_spec A c Hwf Hc) as (column & Hget & Hwfc & HRc & HCc & Hcol).
  destruct (setCol_spec A c column Hwf Hwfc Hc HCc HRc)
    as (A' & Hset & Hwf' & HR' & HC' & Hnew & Hold).
  exists column. split; [done |].
  rewrite Hset. do 2 f_equal.
  apply Matrix_ext; try done.
  intros i j Hi Hj. destruct (decide (j = c)) as [->|Hne].
  - rewrite Hnew by lia. rewrite elem_get by (done || lia).
    f_equal. unfold get at 1. rewrite Hcol by lia. done.
  - by apply Hold.
Qed.

Lemma setCol_getCol_witness :
  exists column,
    getCol C23 1 = Ret column /\ setCol 1 column C23 = (C23, Ret tt).
Proof.
  apply (setCol_getCol C23 1).
  - by apply wfb_wf.
  - simpl. lia.
Defined.

(** C9.  [transpose] returns, for every matrix, a matrix of the
    transposed shape whose element (j, i) is the element (i, j) of the
    receiver, and transposing that matrix gives the receiver back. *)
Theorem transpose_involutive (A : Matrix) :
  wf A ->
  exists T,
    transpose A = Ret T /\ wf T /\
    rows T = cols A /\ cols T = rows A /\
    (forall i j, i < rows A -> j < cols A -> at_const T j i = at_const A i j) /\
    transpose T = Ret A.
Proof.
  intros Hwf.
  destruct (transpose_spec A Hwf) as (T & HT & HwfT & HR & HC & Helem).
  destruct (transpose_spec T HwfT) as (U & HU & HwfU & HRU & HCU & HelemU).
  exists T. do 4 (split; [done |]). split.
  - intros i j Hi Hj. rewrite (at_const_get A i j) by done.
    apply at_const_elem; [lia | lia | by apply Helem].
  - rewrite HU. f_equal. apply Matrix_ext; try done; try congruence.
    intros i j Hi Hj.
    rewrite HelemU by lia. rewrite elem_get by (done || lia).
    f_equal. unfold get at 1. rewrite Helem by lia. done.
Qed.

Lemma transpose_involutive_witness :
  exists T,
    transpose C23 = Ret T /\ wf T /\
    rows T = cols C23 /\ cols T = rows C23 /\
    (forall i j, i < rows C23 -> j < cols C23 -> at_const T j i = at_const C23 i j) /\
    transpose T = Ret C23.
Proof.
  apply (transpose_involutive C23). by apply wfb_wf.
Defined.

(** The 0 x 0 matrix and a matrix with rows but no columns transpose
    like any other. *)
Example transpose_empty :
  transpose Matrix_default = Ret Matrix_default /\
  transpose (Matrix_zero 3 0) = Ret (Matrix_zero 0 3) /\
  transpose (Matrix_zero 0 3) = Ret (Matrix_zero 3 0).
Proof. by vm_compute. Qed.

(** C10, as the code has it.  Within the size limits of the two vectors
    [resize] returns and leaves the receiver a zero-filled matrix of the
    new shape, whatever it was before, a zero number of rows or columns
    included; beyond them it throws [std::length_error]. *)
Theorem resize_within_max_size (A : Matrix) (r c : nat) :
  (within_max_size r c ->
   exists A',
     resize r c A = (A', Ret tt) /\ wf A' /\
     rows A' = r /\ cols A' = c /\
     data A' = replicate r (replicate c 0%float) /\
     forall i j, i < r -> j < c -> at_const A' i j = Ret 0%float) /\
  (~ within_max_size r c ->
   exists e, snd (resize r c A) = Throw e /\ exn_class e = length_error).
Proof.
  split.
  - intros Hin. exists (Matrix_zero r c). split; [by apply resize_spec |].
    split; [apply wf_Matrix_value |]. do 2 (split; [reflexivity |]).
    split; [apply data_Matrix_value |].
    intros i j Hi Hj. apply at_const_elem; [exact Hi | exact Hj |].
    by apply elem_Matrix_value.
  - intros Hout.
    destruct (N.ltb_spec (vector_max_size sizeof_double) (N.of_nat c)) as [Hc|Hc].
    + exists cannot_create_vector. by rewrite resize_cols_too_large.
    + destruct (N.ltb_spec (vector_max_size sizeof_vector) (N.of_nat r)) as [Hr|Hr].
      * exists fill_insert_too_long. by rewrite resize_rows_too_large.
      * destruct Hout. by split.
Qed.

Lemma resize_within_max_size_witness :
  exists A',
    resize 3 2 A22 = (A', Ret tt) /\ wf A' /\
    rows A' = 3 /\ cols A' = 2 /\
    data A' = replicate 3 (replicate 2 0%float) /\
    forall i j, i < 3 -> j < 2 -> at_const A' i j = Ret 0%float.
Proof.
  apply (proj1 (resize_within_max_size A22 3 2)).
  split; by vm_compute.
Defined.

Lemma resize_SIZE_MAX_outcome :
  resize (N.to_nat (2 ^ 64 - 1)) 1 A22
  = (mkMatrix [] (N.to_nat (2 ^ 64 - 1)) 1, Throw fill_insert_too_long).
Proof.
  apply resize_rows_too_large.
  + vm_compute. discriminate.
  + rewrite N2Nat.id. vm_compute. reflexivity.
Qed.

Lemma no_data_not_wf r c : 0 < r -> ~ wf (mkMatrix [] r c).
Proof. intros Hr [Hlen _]. simpl in Hlen. lia. Qed.

Lemma N_to_nat_pos x : (0 < x)%N -> 0 < N.to_nat x.
Proof. lia. Qed.

Lemma resize_SIZE_MAX_receiver : ~ wf (mkMatrix [] (N.to_nat (2 ^ 64 - 1)) 1).
Proof.
  apply no_data_not_wf, N_to_nat_pos. vm_compute. reflexivity.
Qed.

(** [resize(SIZE_MAX, 1)] does not return: growing [data] to
    [2^64 - 1] rows is refused, after [rows] and [cols] were assigned and
    [data] was cleared, so the receiver is left without its rows. *)
Lemma resize_SIZE_MAX_throws :
  resize (N.to_nat (2 ^ 64 - 1)) 1 A22
  = (mkMatrix [] (N.to_nat (2 ^ 64 - 1)) 1, Throw fill_insert_too_long) /\
  ~ wf (mkMatrix [] (N.to_nat (2 ^ 64 - 1)) 1).
Proof.
  exact (conj resize_SIZE_MAX_outcome resize_SIZE_MAX_receiver).
Qed.

Example resize_examples :
  resize 1 2 A22 = (mkMatrix [[0; 0]]%float 1 2, Ret tt) /\
  resize 0 3 A22 = (mkMatrix [] 0 3, Ret tt) /\
  resize 2 0 A22 = (mkMatrix [[]; []] 2 0, Ret tt).
Proof. by vm_compute. Qed.

(** The concrete scenarios of the specification that the code meets. *)
Example scenario_add :
  operator_plus A22 B22 = Ret (mkMatrix [[6; 8]; [10; 12]]%float 2 2).
Proof. by vm_compute. Qed.

Example scenario_transpose :
  transpose A22 = Ret (mkMatrix [[1; 3]; [2; 4]]%float 2 2).
Proof. by vm_compute. Qed.

Example scenario_hadamard :
  hadamard A22 B22 = Ret (mkMatrix [[5; 12]; [21; 32]]%float 2 2).
Proof. by vm_compute. Qed.

Example scenario_sum :
  sum (Matrix_zero 2 3) = Ret 0%float /\
  sum (fst (fill 2%float (Matrix_zero 2 3))) = Ret 12%float.
Proof. by vm_compute. Qed.

Example scenario_divide_by_zero :
  operator_div A22 0%float = Throw division_by_zero /\
  operator_div A22 (-0)%float = Throw division_by_zero.
Proof. by vm_compute. Qed.

(** * Further properties of the code *)

(** ** Construction and element access *)

Lemma at_const_out_of_range m row col :
  rows m <= row \/ cols m <= col ->
  at_const m row col = Throw (mkException out_of_range "Matrix index out of range").
Proof.
  intros Hout. unfold at_const.
  destruct (Nat.leb_spec (rows m) row); [done |].
  destruct (Nat.leb_spec (cols m) col); [done | lia].
Qed.

Lemma at_write_out_of_range m row col x :
  rows m <= row \/ cols m <= col ->
  at_write row col x m = (m, Throw (mkException out_of_range "Matri index out of range")).
Proof.
  intros Hout. unfold at_write.
  destruct (Nat.leb_spec (rows m) row); [done |].
  destruct (Nat.leb_spec (cols m) col); [done | lia].
Qed.

(** X1.  The const [operator()] throws [out_of_range] exactly when the
    row or the column is outside the matrix and returns the stored
    element otherwise. *)
Theorem at_const_range (m : Matrix) (row col : nat) :
  wf m ->
  (at_const m row col = Throw (mkException out_of_range "Matrix index out of range")
   <-> rows m <= row \/ cols m <= col) /\
  (row < rows m /\ col < cols m <->
   exists x, at_const m row col = Ret x /\ elem m row col = Some x).
Proof.
  intros Hwf. split; split.
  - intros Hthrow.
    destruct (decide (rows m <= row \/ cols m <= col)) as [|Hin]; [done |].
    rewrite at_const_get in Hthrow by (done || lia). done.
  - apply at_const_out_of_range.
  - intros [Hr Hc]. exists (get m row col).
    split; [by apply at_const_get | by apply elem_get].
  - intros (x & Hx & _). apply at_const_Ret in Hx; [lia | done].
Qed.

Lemma at_const_range_witness :
  (at_const C23 1 2 = Throw (mkException out_of_range "Matrix index out of range")
   <-> rows C23 <= 1 \/ cols C23 <= 2) /\
  (1 < rows C23 /\ 2 < cols C23 <->
   exists x, at_const C23 1 2 = Ret x /\ elem C23 1 2 = Some x).
Proof. apply (at_const_range C23 1 2). by apply wfb_wf. Defined.

(** X2.  A store through the mutable [operator()] at a valid position
    returns, keeps the shape, is read back by the const [operator()] and
    leaves every other position as it was; outside the matrix it throws
    [out_of_range] and the matrix is what it was. *)
Theorem at_write_then_read (m : Matrix) (row col : nat) (x : float) :
  wf m ->
  (row < rows m /\ col < cols m ->
   exists m',
     at_write row col x m = (m', Ret tt) /\ wf m' /\
     rows m' = rows m /\ cols m' = cols m /\
     at_const m' row col = Ret x /\
     forall row' col', (row', col') <> (row, col) ->
       at_const m' row' col' = at_const m row' col') /\
  (rows m <= row \/ cols m <= col ->
   at_write row col x m
   = (m, Throw (mkException out_of_range "Matri index out of range"))).
Proof.
  intros Hwf. split; [|apply at_write_out_of_range].
  intros [Hr Hc]. exists (store m row col x).
  split; [by apply at_write_store |].
  split; [by apply wf_store |]. do 2 (split; [done |]). split.
  - apply at_const_elem; [done | done | by apply elem_store_eq].
  - intros row' col' Hne. unfold at_const. simpl.
    destruct ((rows m <=? row') || (cols m <=? col')); [done |].
    unfold vector_read.
    assert (He : elem (store m row col x) row' col' = elem m row' col').
    { apply elem_store_ne. congruence. }
    unfold elem in He. simpl in He.
    assert (Hlen : forall r r', alter (fun r0 => <[col:=x]> r0) row (data m) !! row' = Some r ->
                               data m !! row' = Some r' -> length r = length r').
    { intros r r'. destruct (decide (row = row')) as [<-|Hrow].
      - rewrite list_lookup_alter_eq. intros H1 H2. rewrite H2 in H1.
        simpl in H1. injection H1 as <-. by rewrite length_insert.
      - rewrite list_lookup_alter_ne by done. congruence. }
    assert (Halt : length (alter (fun r0 => <[col:=x]> r0) row (data m)) = length (data m))
      by apply length_alter.
    destruct (alter (fun r0 => <[col:=x]> r0) row (data m) !! row') as [r|] eqn:H1;
      destruct (data m !! row') as [r'|] eqn:H2.
    + rewrite He. rewrite (Hlen r r' eq_refl eq_refl). done.
    + apply lookup_lt_Some in H1. apply lookup_ge_None in H2. lia.
    + apply lookup_ge_None in H1. apply lookup_lt_Some in H2. lia.
    + by rewrite Halt.
Qed.

Lemma at_write_then_read_witness :
  (1 < rows C23 /\ 2 < cols C23 ->
   exists m',
     at_write 1 2 9%float C23 = (m', Ret tt) /\ wf m' /\
     rows m' = rows C23 /\ cols m' = cols C23 /\
     at_const m' 1 2 = Ret 9%float /\
     forall row' col', (row', col') <> (1, 2) ->
       at_const m' row' col' = at_const C23 row' col') /\
  (rows C23 <= 1 \/ cols C23 <= 2 ->
   at_write 1 2 9%float C23
   = (C23, Throw (mkException out_of_range "Matri index out of range"))).
Proof. apply (at_write_then_read C23 1 2 9%float). by apply wfb_wf. Defined.

(** X3.  [Matrix(r, c, value)] satisfies the class invariant, has the
    shape asked for, holds [value] at every valid position and throws on
    every other access; with zero rows or zero columns every access
    throws.  [Matrix(r, c)] is the case [value = 0.0] and [Matrix()] the
    case [r = c = 0]. *)
Theorem Matrix_value_elements (r c : nat) (value : float) (row col : nat) :
  wf (Matrix_value r c value) /\
  rows (Matrix_value r c value) = r /\ cols (Matrix_value r c value) = c /\
  at_const (Matrix_value r c value) row col
  = (if decide (row < r /\ col < c) then Ret value
     else Throw (mkException out_of_range "Matrix index out of range")) /\
  Matrix_zero r c = Matrix_value r c 0%float /\
  Matrix_default = Matrix_value 0 0 value.
Proof.
  split; [apply wf_Matrix_value |]. do 2 (split; [done |]). split; [|done].
  destruct (decide (row < r /\ col < c)) as [[Hr Hc]|Hout].
  - apply at_const_elem; [exact Hr | exact Hc | by apply elem_Matrix_value].
  - apply at_const_out_of_range. simpl. lia.
Qed.

(** ** Arithmetic on operands of matching shape *)

Lemma at_const_Ret_get m i j x :
  wf m -> at_const m i j = Ret x -> i < rows m /\ j < cols m /\ x = get m i j.
Proof.
  intros Hwf Hx. apply at_const_Ret in Hx as (Hi & Hj & Hx); [|done].
  do 2 (split; [done |]). unfold get. by rewrite Hx.
Qed.

Lemma elementwise_values op A B :
  wf A -> wf B -> same_shape A B ->
  exists R,
    elementwise op A B = Ret R /\ wf R /\ same_shape R A /\
    forall i j a b,
      at_const A i j = Ret a -> at_const B i j = Ret b ->
      at_const R i j = Ret (op a b).
Proof.
  intros HA HB [Hrows Hcols].
  destruct (elementwise_spec op A B HA HB Hrows Hcols)
    as (R & HR & HwfR & HRr & HRc & Helem).
  exists R. do 2 (split; [done |]). split; [done |].
  intros i j a b Ha Hb.
  apply at_const_Ret_get in Ha as (Hi & Hj & ->); [|done].
  apply at_const_Ret_get in Hb as (_ & _ & ->); [|done].
  apply at_const_elem; [lia | lia | by apply Helem].
Qed.

(** X4.  On well-formed operands of one shape [operator+] and
    [operator-] return a well-formed matrix of that shape whose element
    at each position is the sum, respectively the difference, of the
    operands' elements there. *)
Theorem operator_plus_minus_values (A B : Matrix) :
  wf A -> wf B -> same_shape A B ->
  exists S D,
    operator_plus A B = Ret S /\ operator_minus A B = Ret D /\
    wf S /\ wf D /\ same_shape S A /\ same_shape D A /\
    forall i j a b,
      at_const A i j = Ret a -> at_const B i j = Ret b ->
      at_const S i j = Ret (a + b)%float /\ at_const D i j = Ret (a - b)%float.
Proof.
  intros HA HB Hshape.
  destruct (elementwise_values PrimFloat.add A B HA HB Hshape)
    as (S & HS & HwfS & HshS & HvalS).
  destruct (elementwise_values PrimFloat.sub A B HA HB Hshape)
    as (D & HD & HwfD & HshD & HvalD).
  exists S, D. do 6 (split; [done |]).
  intros i j a b Ha Hb. split; [by apply HvalS | by apply HvalD].
Qed.

Lemma operator_plus_minus_values_witness :
  exists S D,
    operator_plus A22 B22 = Ret S /\ operator_minus A22 B22 = Ret D /\
    wf S /\ wf D /\ same_shape S A22 /\ same_shape D A22 /\
    forall i j a b,
      at_const A22 i j = Ret a -> at_const B22 i j = Ret b ->
      at_const S i j = Ret (a + b)%float /\ at_const D i j = Ret (a - b)%float.
Proof.
  apply (operator_plus_minus_values A22 B22).
  - by apply wfb_wf.
  - by apply wfb_wf.
  - by split.
Defined.

(** X5.  [hadamard] throws the dimension error exactly when the shapes
    differ; on well-formed operands of one shape it returns the matrix of
    the element-wise products. *)
Theorem hadamard_values (A B : Matrix) :
  wf A -> wf B ->
  (hadamard A B = Throw dimensions_do_not_match <-> ~ same_shape A B) /\
  (same_shape A B ->
   exists P,
     hadamard A B = Ret P /\ wf P /\ same_shape P A /\
     forall i j a b,
       at_const A i j = Ret a -> at_const B i j = Ret b ->
       at_const P i j = Ret (a * b)%float).
Proof.
  intros HA HB. rewrite hadamard_elementwise. split.
  - apply elementwise_throw_iff.
  - by apply elementwise_values.
Qed.

Lemma hadamard_values_witness :
  (hadamard A22 B22 = Throw dimensions_do_not_match <-> ~ same_shape A22 B22) /\
  (same_shape A22 B22 ->
   exists P,
     hadamard A22 B22 = Ret P /\ wf P /\ same_shape P A22 /\
     forall i j a b,
       at_const A22 i j = Ret a -> at_const B22 i j = Ret b ->
       at_const P i j = Ret (a * b)%float).
Proof. apply (hadamard_values A22 B22); by apply wfb_wf. Defined.

Lemma operator_mul_scalar_values A s :
  wf A ->
  exists R,
    operator_mul_scalar A s = Ret R /\ wf R /\ same_shape R A /\
    forall i j a, at_const A i j = Ret a -> at_const R i j = Ret (a * s)%float.
Proof.
  intros HA.
  destruct (operator_mul_scalar_spec A s HA) as (R & HR & HwfR & HRr & HRc & Helem).
  exists R. do 2 (split; [done |]). split; [done |].
  intros i j a Ha.
  apply at_const_Ret_get in Ha as (Hi & Hj & ->); [|done].
  apply at_const_elem; [lia | lia | by apply Helem].
Qed.

(** X6.  [operator*(double)] returns for every well-formed matrix and
    every scalar (zero, infinite and NaN included) a well-formed matrix
    of the same shape whose elements are the receiver's times the
    scalar. *)
Theorem operator_mul_scalar_returns (A : Matrix) (scalar : float) :
  wf A ->
  exists R,
    operator_mul_scalar A scalar = Ret R /\ wf R /\ same_shape R A /\
    forall i j a, at_const A i j = Ret a -> at_const R i j = Ret (a * scalar)%float.
Proof. apply operator_mul_scalar_values. Qed.

Lemma operator_mul_scalar_returns_witness :
  exists R,
    operator_mul_scalar C23 nan = Ret R /\ wf R /\ same_shape R C23 /\
    forall i j a, at_const C23 i j = Ret a -> at_const R i j = Ret (a * nan)%float.
Proof. apply (operator_mul_scalar_returns C23 nan). by apply wfb_wf. Defined.

(** X7.  For a scalar that does not compare equal to 0.0, [operator/]
    returns the matrix of the elements times the rounded reciprocal
    [1.0 / scalar]; it does not divide element by element. *)
Theorem operator_div_values (A : Matrix) (scalar : float) :
  wf A -> (scalar =? 0)%float = false ->
  exists R,
    operator_div A scalar = Ret R /\ wf R /\ same_shape R A /\
    forall i j a,
      at_const A i j = Ret a -> at_const R i j = Ret (a * (1 / scalar))%float.
Proof.
  intros HA Hs. unfold operator_div. rewrite Hs.
  by apply operator_mul_scalar_values.
Qed.

Lemma operator_div_values_witness :
  exists R,
    operator_div A22 2%float = Ret R /\ wf R /\ same_shape R A22 /\
    forall i j a,
      at_const A22 i j = Ret a -> at_const R i j = Ret (a * (1 / 2))%float.
Proof.
  apply (operator_div_values A22 2%float).
  - by apply wfb_wf.
  - reflexivity.
Defined.

(** Element by element the quotient and the product with the reciprocal
    differ: 5 / 3 is not 5 * (1 / 3), and 49 divided by 49 is not 1. *)
Example operator_div_rounds_twice :
  operator_div (mkMatrix [[5]]%float 1 1) 3%float
  = Ret (mkMatrix [[5 * (1 / 3)]]%float 1 1) /\
  (5 * (1 / 3) =? 5 / 3)%float = false /\
  operator_div (mkMatrix [[49]]%float 1 1) 49%float
  = Ret (mkMatrix [[49 * (1 / 49)]]%float 1 1) /\
  (49 * (1 / 49) =? 1)%float = false.
Proof. by vm_compute. Qed.

(** X8.  With matching inner dimensions and fewer than 64 rows on the
    left, [operator*] returns the zero matrix of shape
    [rows x other.cols] whatever the operands hold: the conditions
    [i << rows] and [j << other.cols] end the loops before the first
    iteration.  From 64 rows on the first shift is undefined. *)
Theorem operator_mul_ignores_elements (fuel : nat) (A B : Matrix) :
  cols A = rows B ->
  (rows A < 64 ->
   operator_mul (S fuel) A B = Ret (Matrix_zero (rows A) (cols B))) /\
  (64 <= rows A ->
   operator_mul (S fuel) A B = Undef (shift_count (rows A))).
Proof.
  intros Hinner. split.
  - by apply operator_mul_zero.
  - by apply operator_mul_shift_undefined.
Qed.

Lemma operator_mul_ignores_elements_witness :
  (rows C23 < 64 ->
   operator_mul 1 C23 (Matrix_value 3 4 7%float) = Ret (Matrix_zero (rows C23) 4)) /\
  (64 <= rows C23 ->
   operator_mul 1 C23 (Matrix_value 3 4 7%float) = Undef (shift_count (rows C23))).
Proof. apply (operator_mul_ignores_elements 0 C23 (Matrix_value 3 4 7%float)). reflexivity. Defined.

(** X9.  On well-formed operands of one shape [operator+=] and
    [operator-=] return and leave in the receiver the matrix that
    [operator+], respectively [operator-], returns. *)
Theorem in_place_success (A B : Matrix) :
  wf A -> wf B -> same_shape A B ->
  exists S D,
    operator_plus A B = Ret S /\ operator_plus_assign B A = (S, Ret tt) /\
    operator_minus A B = Ret D /\ operator_minus_assign B A = (D, Ret tt).
Proof.
  intros HA HB Hshape.
  destruct (elementwise_values PrimFloat.add A B HA HB Hshape) as (S & HS & _).
  destruct (elementwise_values PrimFloat.sub A B HA HB Hshape) as (D & HD & _).
  rewrite <- operator_plus_elementwise in HS.
  rewrite <- operator_minus_elementwise in HD.
  exists S, D. split; [done |]. split; [|split; [done |]].
  - unfold operator_plus_assign, bind, gets, lift. simpl. rewrite HS.
    unfold operator_assign, put. by destruct S.
  - unfold operator_minus_assign, bind, gets, lift. simpl. rewrite HD.
    unfold operator_assign, put. by destruct D.
Qed.

Lemma in_place_success_witness :
  exists S D,
    operator_plus A22 B22 = Ret S /\ operator_plus_assign B22 A22 = (S, Ret tt) /\
    operator_minus A22 B22 = Ret D /\ operator_minus_assign B22 A22 = (D, Ret tt).
Proof.
  apply (in_place_success A22 B22).
  - by apply wfb_wf.
  - by apply wfb_wf.
  - by split.
Defined.

(** ** Loops that update each position once *)

Section UpdateLoops.

(** As [store_loops], for a body whose stored value may depend on what
    the matrix holds: the body is only asked to store [val i j] in a
    state reached by the iterations before [(i, j)]. *)
Variables R C n m : nat.
Variable pos : nat -> nat -> nat * nat.
Variable val : nat -> nat -> float.
Variable body : nat -> nat -> M Matrix unit.
Variable r0 : Matrix.

Hypothesis body_store_inv :
  forall i j r, i < n -> j < m -> stored R C n m pos val r0 i j r ->
    body i j r = (store r (fst (pos i j)) (snd (pos i j)) (val i j), Ret tt).
Hypothesis pos_valid :
  forall i j, i < n -> j < m -> fst (pos i j) < R /\ snd (pos i j) < C.
Hypothesis pos_inj :
  forall i j i' j', i < n -> j < m -> i' < n -> j' < m ->
    pos i j = pos i' j' -> i = i' /\ j = j'.

Lemma update_loops :
  wf r0 -> rows r0 = R -> cols r0 = C ->
  exists r,
    for_lt n (fun i => for_lt m (body i)) r0 = (r, Ret tt) /\
    wf r /\ rows r = R /\ cols r = C /\
    (forall i j, i < n -> j < m ->
       elem r (fst (pos i j)) (snd (pos i j)) = Some (val i j)) /\
    (forall a b, (forall i j, i < n -> j < m -> pos i j <> (a, b)) ->
       elem r a b = elem r0 a b).
Proof.
  intros Hwf HR HC.
  destruct (for_lt_inv (fun i r => stored R C n m pos val r0 i 0 r) n
              (fun i => for_lt m (body i)) r0) as (r & Hr & HI).
  - do 3 (split; [done |]). split; [|done].
    intros i' j' _ [[H _]|[_ H]]; lia.
  - intros i t Hi Ht.
    destruct (for_lt_inv (fun j r => stored R C n m pos val r0 i j r) m (body i) t Ht)
      as (t' & Ht' & HI).
    + intros j u Hj Hu. eexists. split; [by apply body_store_inv |].
      by apply stored_step.
    + exists t'. split; [done |]. by apply stored_next_row.
  - exists r. split; [done |].
    destruct HI as (Hwfr & HRr & HCr & Hdone & Hrest).
    do 3 (split; [done |]). split.
    + intros i j Hi Hj. apply Hdone; [done |]. left. lia.
    + intros a b H. apply Hrest. intros i' j' Hi' [[H1 H2]|[-> H2]]; [|lia].
      by apply H.
Qed.

End UpdateLoops.

(** X10.  [operator*=] returns on every well-formed matrix and leaves in
    the receiver the matrix that [operator*(double)] returns for the same
    scalar. *)
Theorem operator_mul_assign_agrees (A : Matrix) (scalar : float) :
  wf A ->
  exists R,
    operator_mul_scalar A scalar = Ret R /\
    operator_mul_assign scalar A = (R, Ret tt).
Proof.
  intros HA.
  destruct (operator_mul_scalar_spec A scalar HA)
    as (R & HR & HwfR & HRr & HRc & Helem).
  exists R. split; [done |].
  unfold operator_mul_assign, bind, gets.
  destruct (update_loops (rows A) (cols A) (rows A) (cols A) (fun i j => (i, j))
              (fun i j => (get A i j * scalar)%float)
              (fun i j => data_update i j (fun x => (x * scalar)%float)) A)
    as (A' & HA' & Hwf' & HR' & HC' & Hdone & _); try done.
  - intros i j r Hi Hj (Hwfr & HRr' & HCr' & _ & Hrest).
    unfold data_update, bind, data_read.
    assert (Hget : elem r i j = Some (get A i j)).
    { rewrite Hrest; [by apply elem_get |].
      intros i' j' _ Hb H. apply pair_neq_inv in H as [-> ->].
      destruct Hb as [[? _]|[_ ?]]; lia. }
    rewrite (vector_read_elem _ _ _ _ Hget).
    simpl. apply data_write_store; (done || lia).
  - intros i j i' j' _ _ _ _. apply pair_neq_inv.
  - rewrite HA'. do 2 f_equal. apply Matrix_ext; try done; try congruence.
    intros i j Hi Hj. specialize (Hdone i j). simpl in Hdone.
    rewrite Hdone by lia. symmetry. apply Helem; lia.
Qed.

Lemma operator_mul_assign_agrees_witness :
  exists R,
    operator_mul_scalar C23 3%float = Ret R /\
    operator_mul_assign 3%float C23 = (R, Ret tt).
Proof. apply (operator_mul_assign_agrees C23 3%float). by apply wfb_wf. Defined.

(** ** Transposition, element-wise maps, filling and summing *)

Lemma elem_get_eq m i j x : elem m i j = Some x -> get m i j = x.
Proof. intros H. unfold get. by rewrite H. Qed.

Lemma elementwise_transpose op A B :
  wf A -> wf B -> same_shape A B ->
  commutes_with_transpose (elementwise op) A B.
Proof.
  intros HA HB [Hrows Hcols].
  destruct (elementwise_spec op A B HA HB Hrows Hcols)
    as (R & HR & HwfR & HRr & HRc & HelemR).
  destruct (transpose_spec R HwfR) as (TR & HTR & HwfTR & HTRr & HTRc & HelemTR).
  destruct (transpose_spec A HA) as (TA & HTA & HwfTA & HTAr & HTAc & HelemTA).
  destruct (transpose_spec B HB) as (TB & HTB & HwfTB & HTBr & HTBc & HelemTB).
  destruct (elementwise_spec op TA TB HwfTA HwfTB) as (Q & HQ & HwfQ & HQr & HQc & HelemQ);
    [congruence | congruence |].
  exists R, TR, TA, TB. do 4 (split; [done |]).
  rewrite HQ. f_equal. apply Matrix_ext; try done; try congruence.
  intros j i Hj Hi.
  rewrite HelemQ by congruence.
  rewrite HelemTR by congruence.
  f_equal.
  rewrite (elem_get_eq _ _ _ _ (HelemR i j ltac:(congruence) ltac:(congruence))).
  rewrite (elem_get_eq _ _ _ _ (HelemTA i j ltac:(congruence) ltac:(congruence))).
  rewrite (elem_get_eq _ _ _ _ (HelemTB i j ltac:(congruence) ltac:(congruence))).
  done.
Qed.

(** X11.  On well-formed operands of one shape, transposing the result
    of [operator+], [operator-] or [hadamard] gives what the operation
    returns on the transposed operands. *)
Theorem transpose_distributes (A B : Matrix) :
  wf A -> wf B -> same_shape A B ->
  commutes_with_transpose operator_plus A B /\
  commutes_with_transpose operator_minus A B /\
  commutes_with_transpose hadamard A B.
Proof.
  intros HA HB Hshape. split; [|split].
  - by apply (elementwise_transpose PrimFloat.add).
  - by apply (elementwise_transpose PrimFloat.sub).
  - by apply (elementwise_transpose PrimFloat.mul).
Qed.

Lemma transpose_distributes_witness :
  commutes_with_transpose operator_plus C23 C23 /\
  commutes_with_transpose operator_minus C23 C23 /\
  commutes_with_transpose hadamard C23 C23.
Proof.
  apply (transpose_distributes C23 C23).
  - by apply wfb_wf.
  - by apply wfb_wf.
  - by split.
Defined.

(** [apply]. *)
Lemma apply_spec A func :
  wf A ->
  exists r,
    apply A func = Ret r /\ wf r /\ rows r = rows A /\ cols r = cols A /\
    forall i j, i < rows A -> j < cols A -> elem r i j = Some (func (get A i j)).
Proof.
  intros HA. unfold apply.
  destruct (store_loops (rows A) (cols A) (rows A) (cols A) (fun i j => (i, j))
              (fun i j => func (get A i j))
              (fun i j =>
                 a <- lift (vector_read (data A) i j) ;;
                 at_write i j (func a)))
    with (r0 := Matrix_zero (rows A) (cols A))
    as (r & Hr & Hwfr & HRr & HCr & Hdone & _); try done.
  - intros i j r Hi Hj Hwf HR HC. unfold bind, lift.
    rewrite vector_read_get by done.
    simpl. apply at_write_store; (done || lia).
  - intros i j i' j' _ _ _ _. apply pair_neq_inv.
  - apply wf_Matrix_value.
  - exists r. unfold with_local. rewrite Hr. by repeat (split; [done |]).
Qed.

(** X12.  [apply] returns for every well-formed matrix and every
    function a well-formed matrix of the same shape whose element at each
    position is the function of the receiver's element there. *)
Theorem apply_values (A : Matrix) (func : float -> float) :
  wf A ->
  exists R,
    apply A func = Ret R /\ wf R /\ same_shape R A /\
    forall i j a, at_const A i j = Ret a -> at_const R i j = Ret (func a).
Proof.
  intros HA.
  destruct (apply_spec A func HA) as (R & HR & HwfR & HRr & HRc & Helem).
  exists R. do 2 (split; [done |]). split; [done |].
  intros i j a Ha.
  apply at_const_Ret_get in Ha as (Hi & Hj & ->); [|done].
  apply at_const_elem; [lia | lia | by apply Helem].
Qed.

Lemma apply_values_witness :
  exists R,
    apply C23 PrimFloat.sqrt = Ret R /\ wf R /\ same_shape R C23 /\
    forall i j a, at_const C23 i j = Ret a -> at_const R i j = Ret (PrimFloat.sqrt a).
Proof. apply (apply_values C23 PrimFloat.sqrt). by apply wfb_wf. Defined.

(** X13.  Applying [f] and then [g] gives what applying their
    composition gives, and applying the identity function gives the
    receiver back. *)
Theorem apply_compose (A : Matrix) (f g : float -> float) :
  wf A ->
  (exists R1 R2,
     apply A f = Ret R1 /\ apply R1 g = Ret R2 /\
     apply A (fun x => g (f x)) = Ret R2) /\
  apply A (fun x => x) = Ret A.
Proof.
  intros HA.
  destruct (apply_spec A f HA) as (R1 & HR1 & Hwf1 & Hr1 & Hc1 & He1).
  destruct (apply_spec R1 g Hwf1) as (R2 & HR2 & Hwf2 & Hr2 & Hc2 & He2).
  destruct (apply_spec A (fun x => g (f x)) HA) as (R3 & HR3 & Hwf3 & Hr3 & Hc3 & He3).
  destruct (apply_spec A (fun x => x) HA) as (R4 & HR4 & Hwf4 & Hr4 & Hc4 & He4).
  split.
  - exists R1, R2. do 2 (split; [done |]). rewrite HR3. f_equal.
    apply Matrix_ext; try done; try congruence.
    intros i j Hi Hj. rewrite He3, He2 by congruence.
    by rewrite (elem_get_eq _ _ _ _ (He1 i j ltac:(congruence) ltac:(congruence))).
  - rewrite HR4. f_equal. apply Matrix_ext; try done.
    intros i j Hi Hj. rewrite He4 by congruence. symmetry. apply elem_get; (done || lia).
Qed.

Lemma apply_compose_witness :
  (exists R1 R2,
     apply C23 PrimFloat.sqrt = Ret R1 /\ apply R1 PrimFloat.abs = Ret R2 /\
     apply C23 (fun x => PrimFloat.abs (PrimFloat.sqrt x)) = Ret R2) /\
  apply C23 (fun x => x) = Ret C23.
Proof. apply (apply_compose C23 PrimFloat.sqrt PrimFloat.abs). by apply wfb_wf. Defined.

(** X14.  [fill] returns on every well-formed matrix and leaves the
    matrix [Matrix(rows, cols, value)] in the receiver, whatever it held;
    [fill(0.0)] leaves what [resize(rows, cols)] leaves, the shape being
    one the vectors can have. *)
Theorem fill_is_constructor (A : Matrix) (value : float) :
  wf A ->
  fill value A = (Matrix_value (rows A) (cols A) value, Ret tt) /\
  (within_max_size (rows A) (cols A) ->
   fill 0%float A = resize (rows A) (cols A) A).
Proof.
  intros HA.
  assert (Hfill : forall v, fill v A = (Matrix_value (rows A) (cols A) v, Ret tt)).
  { intros v. destruct (fill_spec v A HA) as (R & HR & HwfR & HRr & HRc & Helem).
    rewrite HR. do 2 f_equal. apply Matrix_ext; try done.
    - apply wf_Matrix_value.
    - intros i j Hi Hj. rewrite Helem by congruence.
      symmetry. apply elem_Matrix_value; congruence. }
  split; [apply Hfill |]. intros Hin. by rewrite Hfill, resize_spec.
Qed.

Lemma fill_is_constructor_witness :
  fill 7%float C23 = (Matrix_value (rows C23) (cols C23) 7%float, Ret tt) /\
  (within_max_size (rows C23) (cols C23) ->
   fill 0%float C23 = resize (rows C23) (cols C23) C23).
Proof. apply (fill_is_constructor C23 7%float). by apply wfb_wf. Defined.

Lemma concat_empty_rows (d : list (list float)) :
  Forall (fun r => length r = 0) d -> concat d = [].
Proof.
  induction 1 as [|r d Hr _ IH]; [done |].
  simpl. rewrite IH. apply nil_length_inv in Hr. by rewrite Hr.
Qed.

(** X15.  [sum] returns on every well-formed matrix the elements added
    one by one to 0.0 in row-major order; on a matrix without elements
    that is 0.0. *)
Theorem sum_row_major (A : Matrix) :
  wf A ->
  sum A = Ret (foldl PrimFloat.add 0%float (concat (data A))) /\
  (rows A = 0 \/ cols A = 0 -> sum A = Ret 0%float).
Proof.
  intros HA.
  assert (Hsum : sum A = Ret (foldl PrimFloat.add 0%float (concat (data A)))).
  { unfold sum, with_local.
    destruct (for_lt_inv
                (fun i t => t = foldl PrimFloat.add 0%float (concat (take i (data A))))
                (rows A)
                (fun i => for_lt (cols A) (fun j =>
                   a <- lift (vector_read (data A) i j) ;;
                   total <- gets id ;;
                   put (total + a)%float)) 0%float) as (t & Ht & HI).
    - by rewrite take_0.
    - intros i t Hi ->.
      destruct (wf_row_lookup A i HA Hi) as (r & Hr & Hlen).
      destruct (for_lt_inv
                  (fun j t => t = foldl PrimFloat.add
                                    (foldl PrimFloat.add 0%float (concat (take i (data A))))
                                    (take j r))
                  (cols A)
                  (fun j =>
                     a <- lift (vector_read (data A) i j) ;;
                     total <- gets id ;;
                     put (total + a)%float)
                  (foldl PrimFloat.add 0%float (concat (take i (data A)))))
        as (t & Ht & HI).
      + by rewrite take_0.
      + intros j u Hj ->.
        destruct (lookup_lt_is_Some_2 r j) as [x Hx]; [lia |].
        eexists. split.
        * unfold bind, lift, gets, put, vector_read. rewrite Hr, Hx. done.
        * rewrite (take_S_r _ _ _ Hx), foldl_snoc. done.
      + exists t. split; [done |].
        rewrite HI, (take_S_r _ _ _ Hr), concat_app, foldl_app. simpl.
        rewrite app_nil_r, (take_ge r) by lia. done.
    - rewrite Ht, HI, take_ge; [done |]. destruct HA as [-> _]. done. }
  split; [done |].
  intros Hempty. rewrite Hsum. f_equal.
  assert (Hnil : concat (data A) = []).
  { destruct HA as [Hlen Hrows]. destruct Hempty as [H0|H0].
    - rewrite H0 in Hlen. apply nil_length_inv in Hlen. by rewrite Hlen.
    - rewrite H0 in Hrows. by apply concat_empty_rows. }
  by rewrite Hnil.
Qed.

Lemma sum_row_major_witness :
  sum C23 = Ret (foldl PrimFloat.add 0%float (concat (data C23))) /\
  (rows C23 = 0 \/ cols C23 = 0 -> sum C23 = Ret 0%float).
Proof. apply (sum_row_major C23). by apply wfb_wf. Defined.

(** ** Rows and columns *)

(** X16.  [getRow] throws [out_of_range] exactly when the row is outside
    the matrix; otherwise it returns a sequence of [cols] values whose
    entry [j] is the element at [(row, j)]. *)
Theorem getRow_values (A : Matrix) (row : nat) :
  wf A ->
  (getRow A row = Throw row_out_of_range <-> rows A <= row) /\
  (row < rows A ->
   exists r,
     getRow A row = Ret r /\ length r = cols A /\
     forall j x, at_const A row j = Ret x <-> r !! j = Some x).
Proof.
  intros HA. unfold getRow.
  destruct (Nat.leb_spec (rows A) row) as [Hout|Hin].
  - split; [done | lia].
  - destruct (wf_row_lookup A row HA Hin) as (r & Hr & Hlen). rewrite Hr.
    split; [split; [done | lia] |].
    intros _. exists r. do 2 (split; [done |]).
    intros j x. split.
    + intros Hx. apply at_const_Ret in Hx as (_ & _ & Hx); [|done].
      unfold elem in Hx. by rewrite Hr in Hx.
    + intros Hx. apply at_const_elem; [done | |].
      * apply lookup_lt_Some in Hx. lia.
      * unfold elem. by rewrite Hr.
Qed.

Lemma getRow_values_witness :
  (getRow C23 1 = Throw row_out_of_range <-> rows C23 <= 1) /\
  (1 < rows C23 ->
   exists r,
     getRow C23 1 = Ret r /\ length r = cols C23 /\
     forall j x, at_const C23 1 j = Ret x <-> r !! j = Some x).
Proof. apply (getRow_values C23 1). by apply wfb_wf. Defined.

(** X17.  [getCol] throws [out_of_range] exactly when the column is
    outside the matrix; otherwise it returns a well-formed [rows x 1]
    matrix whose element [(i, 0)] is the element at [(i, col)]. *)
Theorem getCol_values (A : Matrix) (col : nat) :
  wf A ->
  (getCol A col = Throw column_out_of_range <-> cols A <= col) /\
  (col < cols A ->
   exists column,
     getCol A col = Ret column /\ wf column /\
     rows column = rows A /\ cols column = 1 /\
     forall i x, at_const A i col = Ret x <-> at_const column i 0 = Ret x).
Proof.
  intros HA. split.
  - split.
    + intros Hthrow. destruct (Nat.le_gt_cases (cols A) col) as [|Hin]; [done |].
      destruct (getCol_spec A col HA Hin) as (c & Hc & _). by rewrite Hc in Hthrow.
    + intros Hout. unfold getCol. by destruct (Nat.leb_spec (cols A) col); [|lia].
  - intros Hin.
    destruct (getCol_spec A col HA Hin) as (c & Hc & Hwfc & Hrc & Hcc & Helem).
    exists c. do 4 (split; [done |]).
    intros i x. split; intros Hx.
    + apply at_const_Ret_get in Hx as (Hi & _ & ->); [|done].
      apply at_const_elem; [lia | lia | by apply Helem].
    + apply at_const_Ret_get in Hx as (Hi & _ & ->); [|done].
      rewrite (elem_get_eq _ _ _ _ (Helem i ltac:(lia))).
      apply at_const_get; (done || lia).
Qed.

Lemma getCol_values_witness :
  (getCol C23 2 = Throw column_out_of_range <-> cols C23 <= 2) /\
  (2 < cols C23 ->
   exists column,
     getCol C23 2 = Ret column /\ wf column /\
     rows column = rows C23 /\ cols column = 1 /\
     forall i x, at_const C23 i 2 = Ret x <-> at_const column i 0 = Ret x).
Proof. apply (getCol_values C23 2). by apply wfb_wf. Defined.

(** X18.  [setCol] checks the column index first and the shape of the
    argument second: a column outside the matrix throws [out_of_range]
    even for an argument of the wrong shape, a valid column with an
    argument that is not [rows x 1] throws [invalid_argument]; in both
    cases the receiver is what it was.  On well-formed matrices these
    are the only calls that throw. *)
Theorem setCol_errors (A colMatrix : Matrix) (col : nat) :
  wf A -> wf colMatrix ->
  (cols A <= col -> setCol col colMatrix A = (A, Throw column_out_of_range)) /\
  (col < cols A -> cols colMatrix <> 1 \/ rows colMatrix <> rows A ->
   setCol col colMatrix A = (A, Throw column_dimensions)) /\
  (is_Throw (snd (setCol col colMatrix A)) <->
   cols A <= col \/ cols colMatrix <> 1 \/ rows colMatrix <> rows A).
Proof.
  intros HA HM.
  assert (Hrange : cols A <= col ->
                   setCol col colMatrix A = (A, Throw column_out_of_range)).
  { intros Hout. unfold setCol, bind, gets.
    by destruct (Nat.leb_spec (cols A) col); [|lia]. }
  assert (Hshape : col < cols A -> cols colMatrix <> 1 \/ rows colMatrix <> rows A ->
                   setCol col colMatrix A = (A, Throw column_dimensions)).
  { intros Hin Hne. unfold setCol, bind, gets, getCols, getRows.
    destruct (Nat.leb_spec (cols A) col); [lia |].
    destruct (Nat.eqb_spec (cols colMatrix) 1); [|done].
    destruct (Nat.eqb_spec (rows colMatrix) (rows A)); [|done].
    lia. }
  do 2 (split; [done |]). split.
  - intros Hthrow.
    destruct (Nat.le_gt_cases (cols A) col) as [|Hin]; [by left |].
    destruct (decide (cols colMatrix = 1)) as [Hc|]; [|by right; left].
    destruct (decide (rows colMatrix = rows A)) as [Hr|]; [|by right; right].
    destruct (setCol_spec A col colMatrix HA HM Hin Hc Hr) as (A' & HA' & _).
    by rewrite HA' in Hthrow.
  - intros [Hout|Hne].
    + by rewrite Hrange.
    + destruct (Nat.le_gt_cases (cols A) col) as [Hout|Hin].
      * by rewrite Hrange.
      * by rewrite Hshape.
Qed.

Lemma setCol_errors_witness :
  (cols C23 <= 5 -> setCol 5 A22 C23 = (C23, Throw column_out_of_range)) /\
  (5 < cols C23 -> cols A22 <> 1 \/ rows A22 <> rows C23 ->
   setCol 5 A22 C23 = (C23, Throw column_dimensions)) /\
  (is_Throw (snd (setCol 5 A22 C23)) <->
   cols C23 <= 5 \/ cols A22 <> 1 \/ rows A22 <> rows C23).
Proof. apply (setCol_errors C23 A22 5); by apply wfb_wf. Defined.

(** X19.  After [setCol(col, colMatrix)] with a valid column and a
    well-formed [rows x 1] argument, [getCol(col)] returns the argument
    and [getCol] of every other column returns what it returned before;
    the shape of the receiver is kept. *)
Theorem getCol_setCol (A colMatrix : Matrix) (col : nat) :
  wf A -> wf colMatrix -> col < cols A ->
  cols colMatrix = 1 -> rows colMatrix = rows A ->
  exists A',
    setCol col colMatrix A = (A', Ret tt) /\ wf A' /\ same_shape A' A /\
    getCol A' col = Ret colMatrix /\
    forall c, c <> col -> getCol A' c = getCol A c.
Proof.
  intros HA HM Hcol Hc Hr.
  destruct (setCol_spec A col colMatrix HA HM Hcol Hc Hr)
    as (A' & HA' & Hwf' & Hr' & Hc' & Hnew & Hold).
  exists A'. do 2 (split; [done |]). split; [done |]. split.
  - destruct (getCol_spec A' col Hwf') as (K & HK & HwfK & HrK & HcK & HelemK); [lia |].
    rewrite HK. f_equal. apply Matrix_ext; try done; try congruence.
    intros i j Hi Hj. assert (j = 0) as -> by lia.
    rewrite HelemK by lia.
    rewrite (elem_get_eq _ _ _ _ (Hnew i ltac:(lia))).
    symmetry. apply elem_get; (done || lia).
  - intros c Hne. destruct (Nat.le_gt_cases (cols A) c) as [Hout|Hin].
    + unfold getCol. rewrite Hc'.
      by destruct (Nat.leb_spec (cols A) c); [|lia].
    + destruct (getCol_spec A' c Hwf') as (K & HK & HwfK & HrK & HcK & HelemK); [lia |].
      destruct (getCol_spec A c HA Hin) as (L & HL & HwfL & HrL & HcL & HelemL).
      rewrite HK, HL. f_equal. apply Matrix_ext; try done; try congruence.
      intros i j Hi Hj. assert (j = 0) as -> by lia.
      rewrite HelemK, HelemL by lia. f_equal.
      unfold get. by rewrite Hold.
Qed.

Lemma getCol_setCol_witness :
  exists A',
    setCol 2 D21 C23 = (A', Ret tt) /\ wf A' /\ same_shape A' C23 /\
    getCol A' 2 = Ret D21 /\
    forall c, c <> 2 -> getCol A' c = getCol C23 c.
Proof.
  apply (getCol_setCol C23 D21 2); try reflexivity.
  - by apply wfb_wf.
  - by apply wfb_wf.
  - simpl. lia.
Defined.

(** ** The random initialisers on matrices they stay inside of *)

Section DrawLoops.

(** Nested loops whose body stores one draw at [(i, j)], run for
    [i < n], [j < k] on a matrix that has these positions. *)
Variable G : Type.
Variable draw : G -> float * G.
Variables n k : nat.
Variable body : nat -> nat -> M (Matrix * G) unit.
Variable m0 : Matrix.
Variable g0 : G.

Hypothesis body_draw :
  forall i j s, wf (fst s) -> i < rows (fst s) -> j < cols (fst s) ->
    body i j s
    = ((store (fst s) i j (fst (draw (snd s))), snd (draw (snd s))), Ret tt).
Hypothesis rows_enough : n <= rows m0.
Hypothesis cols_enough : k <= cols m0.

Lemma drawn_step i j s :
  i < n -> j < k -> drawn draw n k m0 g0 i j s ->
  drawn draw n k m0 g0 i (S j)
    (store (fst s) i j (fst (draw (snd s))), snd (draw (snd s))).
Proof.
  intros Hi Hj (Hwf & HR & HC & Hg & Hdone & Hrest). unfold drawn. simpl.
  split; [by apply wf_store |]. do 2 (split; [done |]). split.
  { rewrite Hg. by replace (i * k + S j) with (S (i * k + j)) by lia. }
  split.
  - intros i' j' Hi' Hb.
    destruct (decide ((i, j) = (i', j'))) as [Heq|Hne].
    + apply pair_neq_inv in Heq as [<- <-].
      rewrite elem_store_eq by (done || lia). by rewrite Hg.
    + rewrite elem_store_ne by done. apply Hdone; [done |].
      destruct Hb as [Hb|[-> Hb]]; [by left |].
      right. split; [done |].
      destruct (decide (j' = j)) as [->|]; [done | lia].
  - intros a b Hb. rewrite elem_store_ne; [by apply Hrest |].
    intros H. apply pair_neq_inv in H. lia.
Qed.

Lemma drawn_next_row i s :
  drawn draw n k m0 g0 i k s -> drawn draw n k m0 g0 (S i) 0 s.
Proof.
  intros (Hwf & HR & HC & Hg & Hdone & Hrest). do 3 (split; [done |]). split.
  { rewrite Hg. f_equal. lia. }
  split; [|done].
  intros i' j' Hi' [[H1 H2]|[_ H]]; [|lia]. apply Hdone; [done |].
  destruct (decide (i' = i)) as [->|]; [by right | left; lia].
Qed.

Lemma draw_loops :
  wf m0 ->
  exists m',
    for_lt n (fun i => for_lt k (body i)) (m0, g0)
    = ((m', gen_after draw (n * k) g0), Ret tt) /\
    wf m' /\ rows m' = rows m0 /\ cols m' = cols m0 /\
    (forall i j, i < n -> j < k ->
       elem m' i j = Some (draw_at draw (i * k + j) g0)) /\
    (forall i j, k <= j -> elem m' i j = elem m0 i j).
Proof.
  intros Hwf.
  destruct (for_lt_inv (fun i s => drawn draw n k m0 g0 i 0 s) n
              (fun i => for_lt k (body i)) (m0, g0)) as ([m' g'] & Hrun & HI).
  - do 3 (split; [done |]). split; [done |]. split; [|done].
    intros i' j' _ [[H _]|[_ H]]; lia.
  - intros i t Hi Ht.
    destruct (for_lt_inv (fun j s => drawn draw n k m0 g0 i j s) k (body i) t Ht)
      as (t' & Ht' & HI).
    + intros j u Hj Hu. eexists. split; [|by apply drawn_step].
      destruct Hu as (Hwfu & HRu & HCu & _). apply body_draw; (done || lia).
    + exists t'. split; [done |]. by apply drawn_next_row.
  - destruct HI as (Hwf' & HR & HC & Hg & Hdone & Hrest). simpl in *.
    exists m'. split.
    { rewrite Hrun, Hg. do 3 f_equal. lia. }
    do 3 (split; [done |]). split; [|done].
    intros i j Hi Hj. apply Hdone; [done |]. left. lia.
Qed.

End DrawLoops.

Lemma at_const_same_elem m m' i j :
  wf m -> wf m' -> rows m' = rows m -> cols m' = cols m ->
  elem m' i j = elem m i j -> at_const m' i j = at_const m i j.
Proof.
  intros Hwf Hwf' HR HC He.
  destruct (decide (i < rows m /\ j < cols m)) as [[Hi Hj]|Hout].
  - rewrite (at_const_get m) by done.
    apply at_const_elem; [lia | lia |]. rewrite He. by apply elem_get.
  - rewrite !at_const_out_of_range by lia. done.
Qed.

(** X20.  On a well-formed matrix with no more rows than columns
    [randomize] returns and keeps the shape; it draws [rows * rows]
    values, the element at [(i, j)] with [j < rows] is draw number
    [i * rows + j], and the columns from [rows] on hold what they held.
    On a square matrix every element is drawn; with zero rows nothing
    is. *)
Theorem randomize_square_block (mt19937 : Type)
    (uniform_real_distribution : float -> float -> mt19937 -> float * mt19937)
    (min max : float) (m : Matrix) (g : mt19937) :
  wf m -> rows m <= cols m ->
  exists m',
    randomize mt19937 uniform_real_distribution min max (m, g)
    = ((m', gen_after (uniform_real_distribution min max) (rows m * rows m) g), Ret tt) /\
    wf m' /\ same_shape m' m /\
    (forall i j, i < rows m -> j < rows m ->
       at_const m' i j
       = Ret (draw_at (uniform_real_distribution min max) (i * rows m + j) g)) /\
    (forall i j, rows m <= j -> at_const m' i j = at_const m i j).
Proof.
  intros Hwf Hle.
  destruct (draw_loops mt19937 (uniform_real_distribution min max)
              (rows m) (rows m)
              (randomize_at mt19937 uniform_real_distribution min max) m g)
    as (m' & Hrun & Hwf' & HR & HC & Hdone & Hrest); try done.
  { intros i j s. apply randomize_at_store. }
  exists m'. split; [exact Hrun |]. split; [done |]. split; [done |]. split.
  - intros i j Hi Hj. apply at_const_elem; [lia | lia | by apply Hdone].
  - intros i j Hj. apply at_const_same_elem; try done. by apply Hrest.
Qed.

Lemma randomize_square_block_witness :
  exists m',
    randomize nat (fun lo _ g => (lo, S g)) 0%float 1%float (C23, 0)
    = ((m', gen_after (fun g => (0%float, S g)) (rows C23 * rows C23) 0), Ret tt) /\
    wf m' /\ same_shape m' C23 /\
    (forall i j, i < rows C23 -> j < rows C23 ->
       at_const m' i j
       = Ret (draw_at (fun g => (0%float, S g)) (i * rows C23 + j) 0)) /\
    (forall i j, rows C23 <= j -> at_const m' i j = at_const C23 i j).
Proof.
  apply (randomize_square_block nat (fun lo _ g => (lo, S g)) 0%float 1%float C23 0).
  - by apply wfb_wf.
  - simpl. lia.
Defined.

Section HeInitFacts.

Variable mt19937 : Type.
Variable normal_distribution : Type.
Variable normal_distribution_init : float -> float -> normal_distribution.
Variable normal_distribution_draw :
  normal_distribution * mt19937 -> float * (normal_distribution * mt19937).

Lemma heInit_at_store i j (s : Matrix * (normal_distribution * mt19937)) :
  wf (fst s) -> i < rows (fst s) -> j < cols (fst s) ->
  heInit_at mt19937 normal_distribution normal_distribution_draw i j s
  = ((store (fst s) i j (fst (normal_distribution_draw (snd s))),
      snd (normal_distribution_draw (snd s))), Ret tt).
Proof.
  intros Hwf Hi Hj. unfold heInit_at, bind, normal_dis, on_matrix.
  destruct (normal_distribution_draw (snd s)) as [x d']. simpl.
  by rewrite data_write_store.
Qed.

End HeInitFacts.

(** X21.  [heInit] returns on every well-formed matrix and keeps the
    shape; it builds the distribution with mean 0.0 and standard
    deviation [sqrt(2.0 / rows)], draws [rows * cols] values and leaves
    draw number [i * cols + j] at [(i, j)]: every element is assigned, in
    row-major order, and none outside the matrix. *)
Theorem heInit_draws_every_element (mt19937 normal_distribution : Type)
    (normal_distribution_init : float -> float -> normal_distribution)
    (normal_distribution_draw :
       normal_distribution * mt19937 -> float * (normal_distribution * mt19937))
    (m : Matrix) (g : mt19937) :
  wf m ->
  let stddev := PrimFloat.sqrt (2 / double_of_size_t (N.of_nat (rows m)))%float in
  let start := (normal_distribution_init 0%float stddev, g) in
  exists m',
    heInit mt19937 normal_distribution normal_distribution_init
      normal_distribution_draw (m, g)
    = ((m', snd (gen_after normal_distribution_draw (rows m * cols m) start)), Ret tt) /\
    wf m' /\ same_shape m' m /\
    forall i j, i < rows m -> j < cols m ->
      at_const m' i j
      = Ret (draw_at normal_distribution_draw (i * cols m + j) start).
Proof.
  intros Hwf stddev start.
  destruct (draw_loops (normal_distribution * mt19937) normal_distribution_draw
              (rows m) (cols m)
              (heInit_at mt19937 normal_distribution normal_distribution_draw)
              m start)
    as (m' & Hrun & Hwf' & HR & HC & Hdone & _); try done.
  { intros i j s. apply heInit_at_store. }
  exists m'. split.
  - unfold heInit, bind, on_matrix, gets. simpl.
    fold stddev. fold start.
    change (for_lt (rows m) (fun i => for_lt (cols m) (fun j =>
              heInit_at mt19937 normal_distribution normal_distribution_draw i j))
              (m, start))
      with (for_lt (rows m) (fun i => for_lt (cols m)
              (heInit_at mt19937 normal_distribution normal_distribution_draw i))
              (m, start)).
    by rewrite Hrun.
  - split; [done |]. split; [done |].
    intros i j Hi Hj. apply at_const_elem; [lia | lia | by apply Hdone].
Qed.

Lemma heInit_draws_every_element_witness :
  exists m',
    heInit nat unit (fun _ _ => tt) (fun s => (0%float, (fst s, S (snd s)))) (C23, 0)
    = ((m', snd (gen_after (fun s : unit * nat => (0%float, (fst s, S (snd s))))
                   (rows C23 * cols C23)
                   (tt, 0))), Ret tt) /\
    wf m' /\ same_shape m' C23 /\
    forall i j, i < rows C23 -> j < cols C23 ->
      at_const m' i j
      = Ret (draw_at (fun s : unit * nat => (0%float, (fst s, S (snd s))))
               (i * cols C23 + j) (tt, 0)).
Proof.
  apply (heInit_draws_every_element nat unit (fun _ _ => tt)
           (fun s => (0%float, (fst s, S (snd s)))) C23 0).
  by apply wfb_wf.
Defined.

(** X22.  [xavierInit] is [randomize] between [-limit] and [limit] for
    [limit = sqrt(6.0 / (rows + cols))]: on a well-formed matrix with no
    more rows than columns it returns, keeps the shape, draws
    [rows * rows] values into the first [rows] columns and leaves the
    others; on a 0 x 0 matrix, where the limit is infinite, it draws
    nothing. *)
Theorem xavierInit_square_block (mt19937 : Type)
    (uniform_real_distribution : float -> float -> mt19937 -> float * mt19937)
    (m : Matrix) (g : mt19937) :
  wf m -> rows m <= cols m ->
  let limit :=
    PrimFloat.sqrt (6 / double_of_size_t (size_t_add (rows m) (cols m)))%float in
  let dis := uniform_real_distribution (- limit)%float limit in
  exists m',
    xavierInit mt19937 uniform_real_distribution (m, g)
    = ((m', gen_after dis (rows m * rows m) g), Ret tt) /\
    wf m' /\ same_shape m' m /\
    (forall i j, i < rows m -> j < rows m ->
       at_const m' i j = Ret (draw_at dis (i * rows m + j) g)) /\
    (forall i j, rows m <= j -> at_const m' i j = at_const m i j) /\
    (rows m = 0 -> m' = m).
Proof.
  intros Hwf Hle limit dis.
  destruct (draw_loops mt19937 dis (rows m) (rows m)
              (randomize_at mt19937 uniform_real_distribution (- limit)%float limit) m g)
    as (m' & Hrun & Hwf' & HR & HC & Hdone & Hrest); try done.
  { intros i j s. apply randomize_at_store. }
  exists m'. split; [exact Hrun |]. split; [done |]. split; [done |]. split; [|split].
  - intros i j Hi Hj. apply at_const_elem; [lia | lia | by apply Hdone].
  - intros i j Hj. apply at_const_same_elem; try done. by apply Hrest.
  - intros H0. apply Matrix_ext; try done. intros i j Hi Hj. apply Hrest. lia.
Qed.

Lemma xavierInit_square_block_witness :
  exists m',
    xavierInit nat (fun lo _ g => (lo, S g)) (C23, 0)
    = ((m', gen_after
              (fun g => ((- PrimFloat.sqrt (6 / double_of_size_t (size_t_add 2 3)))%float, S g))
              (rows C23 * rows C23) 0), Ret tt) /\
    wf m' /\ same_shape m' C23 /\
    (forall i j, i < rows C23 -> j < rows C23 ->
       at_const m' i j
       = Ret (draw_at
                (fun g => ((- PrimFloat.sqrt (6 / double_of_size_t (size_t_add 2 3)))%float, S g))
                (i * rows C23 + j) 0)) /\
    (forall i j, rows C23 <= j -> at_const m' i j = at_const C23 i j) /\
    (rows C23 = 0 -> m' = C23).
Proof.
  apply (xavierInit_square_block nat (fun lo _ g => (lo, S g)) C23 0).
  - by apply wfb_wf.
  - simpl. lia.
Defined.

(** The limit of [xavierInit] on a 0 x 0 matrix is infinite, and on a
    2 x 4 matrix it is 1. *)
Example xavierInit_limits :
  PrimFloat.sqrt (6 / double_of_size_t (size_t_add 0 0))%float = infinity /\
  PrimFloat.sqrt (6 / double_of_size_t (size_t_add 2 4))%float = 1%float.
Proof. by vm_compute. Qed.

(** ** The identity matrix *)

(** X23.  On a well-formed square matrix [identity] leaves a matrix that
    depends on the size only: the one it leaves on the zero matrix of
    that size.  Calling it again changes nothing, and the matrix is its
    own transpose. *)
Theorem identity_depends_on_size (A : Matrix) :
  wf A -> rows A = cols A ->
  exists I,
    identity A = (I, Ret tt) /\
    identity (Matrix_zero (rows A) (cols A)) = (I, Ret tt) /\
    identity I = (I, Ret tt) /\
    transpose I = Ret I.
Proof.
  intros HA Hsq.
  destruct (identity_spec A HA Hsq) as (I & HI & HwfI & HrI & HcI & HeI).
  assert (Hsame : forall B, wf B -> rows B = rows A -> cols B = cols A ->
                            identity B = (I, Ret tt)).
  { intros B HB Hr Hc.
    destruct (identity_spec B HB) as (J & HJ & HwfJ & HrJ & HcJ & HeJ); [congruence |].
    rewrite HJ. do 2 f_equal. apply Matrix_ext; try done; try congruence.
    intros i j Hi Hj. rewrite HeJ, HeI by congruence. done. }
  exists I. split; [done |]. split; [|split].
  - apply Hsame; [apply wf_Matrix_value | done | done].
  - by apply Hsame.
  - destruct (transpose_spec I HwfI) as (T & HT & HwfT & HrT & HcT & HeT).
    rewrite HT. f_equal. apply Matrix_ext; try done; try congruence.
    intros j i Hj Hi. rewrite HeT by congruence.
    rewrite (elem_get_eq _ _ _ _ (HeI i j ltac:(congruence) ltac:(congruence))).
    rewrite HeI by congruence.
    destruct (decide (i = j)), (decide (j = i)); (done || congruence).
Qed.

Lemma identity_depends_on_size_witness :
  exists I,
    identity A22 = (I, Ret tt) /\
    identity (Matrix_zero (rows A22) (cols A22)) = (I, Ret tt) /\
    identity I = (I, Ret tt) /\
    transpose I = Ret I.
Proof.
  apply (identity_depends_on_size A22).
  - by apply wfb_wf.
  - reflexivity.
Defined.

(** ** A resize the vectors refuse *)

(** X24.  Beyond the size limits [resize] throws [std::length_error],
    the check on the number of columns coming first, and the receiver is
    left with the new dimensions and no data: unless zero rows were asked
    for, it no longer satisfies the class invariant, and what it held is
    gone. *)
Theorem resize_length_error (A : Matrix) (r c : nat) :
  ((vector_max_size sizeof_double < N.of_nat c)%N ->
   resize r c A = (mkMatrix [] r c, Throw cannot_create_vector)) /\
  ((N.of_nat c <= vector_max_size sizeof_double)%N ->
   (vector_max_size sizeof_vector < N.of_nat r)%N ->
   resize r c A = (mkMatrix [] r c, Throw fill_insert_too_long)) /\
  (is_Throw (snd (resize r c A)) ->
   fst (resize r c A) = mkMatrix [] r c /\
   (0 < r -> ~ wf (fst (resize r c A)))).
Proof.
  split; [apply resize_cols_too_large |].
  split; [apply resize_rows_too_large |].
  intros Hthrow.
  assert (Hstate : fst (resize r c A) = mkMatrix [] r c).
  { destruct (N.ltb_spec (vector_max_size sizeof_double) (N.of_nat c)) as [Hc|Hc].
    - by rewrite resize_cols_too_large.
    - destruct (N.ltb_spec (vector_max_size sizeof_vector) (N.of_nat r)) as [Hr|Hr].
      + by rewrite resize_rows_too_large.
      + rewrite resize_spec in Hthrow by (by split). destruct Hthrow. }
  split; [done |]. intros Hr. rewrite Hstate. by apply no_data_not_wf.
Qed.

Lemma resize_length_error_witness :
  resize (N.to_nat (2 ^ 64 - 1)) 1 C23
  = (mkMatrix [] (N.to_nat (2 ^ 64 - 1)) 1, Throw fill_insert_too_long).
Proof.
  apply (proj1 (proj2 (resize_length_error C23 (N.to_nat (2 ^ 64 - 1)) 1))).
  - vm_compute. discriminate.
  - rewrite N2Nat.id. vm_compute. reflexivity.
Defined.
